(** * OpenAPI document generation of the NVMe-oF gateway REST controllers

    A shallow embedding of [ceph_nvmeof_gateway/controllers/doc.py] (class
    [Docs]) and the properties of its specification that were checked
    against it.

    Python dictionaries with a fixed set of keys are records whose optional
    keys are [option] fields; dictionaries used as maps are [gmap]s, or
    association lists where insertion order is observable; exceptions are
    an error type; the in-place updates of the endpoint registry are
    threaded through a small state-and-exception monad. *)

From stdpp Require Import base option list strings gmap fin_maps.
From Stdlib Require Import Ascii ZArith Sorting.Sorted OrderedTypeEx.

Local Open Scope string_scope.
Set Warnings "-register-all,-clear-no-such-hyp".

(** ** Strings *)

(** [str.lower()] on ASCII text: only the letters A-Z change. *)
Definition ascii_lower (c : ascii) : ascii :=
  let n := nat_of_ascii c in
  if (65 <=? n)%nat && (n <=? 90)%nat then ascii_of_nat (n + 32) else c.

Fixpoint lower (s : string) : string :=
  match s with
  | EmptyString => EmptyString
  | String c s' => String (ascii_lower c) (lower s')
  end.

(** [s.startswith(pre)]. *)
Definition startswith (pre s : string) : bool := String.prefix pre s.

(** [sub in s]: [sub] occurs somewhere in [s]. *)
Fixpoint contains (sub s : string) : bool :=
  String.prefix sub s ||
  match s with
  | EmptyString => false
  | String _ s' => contains sub s'
  end.

(** Truth value of a string: the empty string is false. *)
Definition nonempty (s : string) : bool :=
  match s with
  | EmptyString => false
  | _ => true
  end.

(** ** Exceptions *)

Inductive exn : Type :=
  | KeyError (key : string)
  | TypeError
  | IndexError
  | ValueError.

Inductive result (A : Type) : Type :=
  | Ok (a : A)
  | Raise (e : exn).
Arguments Ok {A} a.
Arguments Raise {A} e.

Definition rbind {A B} (r : result A) (k : A → result B) : result B :=
  match r with
  | Ok a => k a
  | Raise e => Raise e
  end.

(** ** Data model *)

(** Default values of parameters: the Python objects the generator tells
    apart.  [bool] is a subclass of [int]. *)
Inductive value : Type :=
  | VNone
  | VBool (b : bool)
  | VInt (n : Z)
  | VStr (s : string)
  | VOther (repr : string).

Definition isinstance_bool (v : option value) : bool :=
  match v with
  | Some (VBool _) => true
  | _ => false
  end.

Definition isinstance_int (v : option value) : bool :=
  match v with
  | Some (VBool _) | Some (VInt _) => true
  | _ => false
  end.

(** Explicit type markers.  The six builtin classes are the ones
    [_type_to_str] tests by identity; [Tclass] is any other class object,
    which does not support indexing; [Mseq] is a list or tuple {e instance}
    used as a marker, such as [[int]]. *)
Inductive marker : Type :=
  | Tstr
  | Tint
  | Tbool
  | Tlist
  | Ttuple
  | Tfloat
  | Tclass (name : string)
  | Mseq (elems : list marker).

(** [marker[0]]. *)
Definition marker_first (m : marker) : result marker :=
  match m with
  | Mseq (x :: _) => Ok x
  | Mseq [] => Raise IndexError
  | _ => Raise TypeError
  end.

(** Modelled from the spec: the [SchemaType] enumeration is declared in the
    [controllers] package, outside this file; its members are the six schema
    primitives and [str] of a member is its lower-case name. *)
Inductive SchemaType : Type :=
  | ARRAY
  | BOOLEAN
  | INTEGER
  | NUMBER
  | OBJECT
  | STRING.

Definition str (t : SchemaType) : string :=
  match t with
  | ARRAY => "array"
  | BOOLEAN => "boolean"
  | INTEGER => "integer"
  | NUMBER => "number"
  | OBJECT => "object"
  | STRING => "string"
  end.

(** A parameter descriptor: the keys ['name'] and ['required'] are read
    unconditionally, the others are tested with [in]. *)
Inductive param : Type := mkParam {
  p_name : string;
  p_required : bool;
  p_default : option value;
  p_type : option marker;
  p_description : option string;
  p_nested_params : option (list param)
}.

(** An explicit parameter description attached to a handler ([p_info]):
    ['name'], ['type'], ['description'], ['required'] and ['nested'] are read
    unconditionally by [_add_param_info]. *)
Inductive override : Type := mkOverride {
  o_name : string;
  o_type : marker;
  o_description : string;
  o_required : bool;
  o_nested : bool;
  o_default : option value;
  o_nested_params : option (list override)
}.

(** The same dictionary read as a parameter descriptor (the ['nested'] key
    is not looked at by the schema builder). *)
Fixpoint override_as_param (p : override) : param :=
  match p with
  | mkOverride n t d r _ dflt np =>
      mkParam n r dflt (Some t) (Some d)
        (match np with
         | None => None
         | Some l => Some (map override_as_param l)
         end)
  end.

(** A schema fragment: a dictionary with the keys ['type'], ['properties'],
    ['items'], ['required'], ['description'] and ['default']. *)
Inductive schema : Type := mkSchema {
  s_type : string;
  s_properties : option (list (string * schema));
  s_items : option schema;
  s_required : option (list string);
  s_description : option string;
  s_default : option value
}.

(** Argument of the schema builder: a plain list of parameters or a
    [SchemaInput] object. *)
Inductive content_input : Type :=
  | PlainParams (params : list param)
  | SchemaInput (type : SchemaType) (params : list param).

(** Insertion-ordered dictionaries: [d[k] = v]. *)
Fixpoint dict_set {V} (d : list (string * V)) (k : string) (v : V)
    : list (string * V) :=
  match d with
  | [] => [(k, v)]
  | (k', v') :: d' =>
      if String.eqb k k' then (k, v) :: d' else (k', v') :: dict_set d' k v
  end.

Fixpoint dict_get {V} (d : list (string * V)) (k : string) : option V :=
  match d with
  | [] => None
  | (k', v') :: d' => if String.eqb k k' then Some v' else dict_get d' k
  end.

(** ** Type inference and type mapping *)

(** [_gen_type]: the type of a parameter without an explicit type, from its
    name and default value. *)
Definition _gen_type (param : param) : string :=
  let param_name := p_name param in
  let def_value := p_default param in
  if startswith "is_" param_name then str BOOLEAN
  else if contains "size" param_name then str INTEGER
  else if contains "count" param_name then str INTEGER
  else if contains "num" param_name then str INTEGER
  else if isinstance_bool def_value then str BOOLEAN
  else if isinstance_int def_value then str INTEGER
  else str STRING.

(** [_type_to_str]: the type of a parameter with an explicit type. *)
Definition _type_to_str (type_as_type : marker) : string :=
  match type_as_type with
  | Tstr => str STRING
  | Tint => str INTEGER
  | Tbool => str BOOLEAN
  | Tlist | Ttuple => str ARRAY
  | Tfloat => str NUMBER
  | _ => str OBJECT
  end.

(** ** Parameter merger *)

(** One iteration of the loop of [_add_param_info] over [p_info], for the
    explicit description [p]; the inner loop of the recursive calls
    [_add_param_info([], p['nested_params'])] is the local [go]. *)
Fixpoint add_param_info_step (p : override) (parameters : list param)
    : list param :=
  match p with
  | mkOverride name type description required nested dflt nested_params =>
      let nested_merged :=
        match nested_params with
        | None => None
        | Some qs =>
            Some ((fix go (qs : list override) (acc : list param) :=
                     match qs with
                     | [] => acc
                     | q :: qs' => go qs' (add_param_info_step q acc)
                     end) qs [])
        end in
      if negb nested then
        map (λ parameter,
               if String.eqb name (p_name parameter) then
                 mkParam (p_name parameter) (p_required parameter)
                   (p_default parameter) (Some type) (Some description)
                   (match nested_merged with
                    | Some l => Some l
                    | None => p_nested_params parameter
                    end)
               else parameter) parameters
      else
        (parameters ++ [mkParam name required dflt (Some type)
                          (Some description) nested_merged])%list
  end.

(** [_add_param_info(parameters, p_info)]: the list that the call leaves in
    [parameters] and returns. *)
Definition _add_param_info (parameters : list param) (p_info : list override)
    : list param :=
  foldl (λ acc p, add_param_info_step p acc) parameters p_info.

(** ** Schema builder *)

(** Modelled from the spec: [Schema(...).as_dict()] is defined in the
    [controllers] package, outside this file.  The result carries the type,
    the properties and the required list, with [items] in place of
    [properties] for an array. *)
Definition Schema_as_dict (schema_type : SchemaType)
    (properties : list (string * schema)) (required : list string) : schema :=
  match schema_type with
  | ARRAY =>
      mkSchema (str ARRAY) None
        (Some (mkSchema (str OBJECT) (Some properties) None None None None))
        (Some required) None None
  | _ => mkSchema (str schema_type) (Some properties) None (Some required)
           None None
  end.

(** The body of the loop of [_gen_schema_for_content] up to the assignment
    of [props] for one parameter, and, as the local [loop], the recursive
    calls on nested parameter lists. *)
Fixpoint gen_props (prm : param) : result schema :=
  match prm with
  | mkParam name required dflt type description nested_params =>
      let nested_schema (nested : list param) : result schema :=
        rbind
          ((fix loop (ps : list param) (required_params : list string)
                (properties : list (string * schema))
              : result (list string * list (string * schema)) :=
              match ps with
              | [] => Ok (required_params, properties)
              | q :: ps' =>
                  match gen_props q with
                  | Raise e => Raise e
                  | Ok props =>
                      loop ps'
                        (if p_required q then (required_params ++ [p_name q])%list
                         else required_params)
                        (dict_set properties (p_name q) props)
                  end
              end) nested [] [])
          (λ '(required_params, properties),
             Ok (Schema_as_dict OBJECT properties required_params)) in
      let with_info (props : schema) : schema :=
        mkSchema (s_type props) (s_properties props) (s_items props)
          (s_required props)
          (match description with
           | Some d => Some d
           | None => s_description props
           end)
          (match dflt with
           | Some v => Some v
           | None => s_default props
           end) in
      match type with
      | Some t =>
          let ty := _type_to_str t in
          match nested_params with
          | Some nested =>
              if String.eqb ty (str ARRAY) then
                rbind (nested_schema nested) (λ items,
                  Ok (with_info (mkSchema ty None (Some items) None None None)))
              else
                rbind (nested_schema nested) (λ props, Ok (with_info props))
          | None =>
              if String.eqb ty (str OBJECT) then
                rbind (marker_first t) (λ t0,
                  Ok (with_info
                        (mkSchema (str ARRAY) None
                           (Some (mkSchema (_type_to_str t0) None None None
                                    None None))
                           None None None)))
              else Ok (with_info (mkSchema ty None None None None None))
          end
      | None =>
          Ok (with_info (mkSchema (_gen_type prm) None None None None None))
      end
  end.

(** The loop of [_gen_schema_for_content] over [params]. *)
Fixpoint gen_schema_loop (params : list param) (required_params : list string)
    (properties : list (string * schema))
    : result (list string * list (string * schema)) :=
  match params with
  | [] => Ok (required_params, properties)
  | prm :: params' =>
      match gen_props prm with
      | Raise e => Raise e
      | Ok props =>
          gen_schema_loop params'
            (if p_required prm then (required_params ++ [p_name prm])%list
             else required_params)
            (dict_set properties (p_name prm) props)
      end
  end.

Definition _gen_schema_for_content (params : content_input) : result schema :=
  let '(schema_type, params) :=
    match params with
    | SchemaInput type params => (type, params)
    | PlainParams params => (OBJECT, params)
    end in
  rbind (gen_schema_loop params [] [])
    (λ '(required_params, properties),
       Ok (Schema_as_dict schema_type properties required_params)).

(** ** Response builder *)

(** The value under ['content'] of a response: the generic
    [{'application/json': {'type': 'object'}}] or an explicit schema. *)
Inductive content : Type :=
  | GenericObject
  | SchemaContent (s : schema).

Record response : Type := mkResponse {
  r_description : string;
  r_content : option content
}.

(** The overlay of the explicit response bodies: for each status code of
    [resp_object], in its order, that is already a key of [resp]. *)
Fixpoint overlay_responses (resp_object : list (string * content_input))
    (resp : gmap string response) : result (gmap string response) :=
  match resp_object with
  | [] => Ok resp
  | (status_code, response_body) :: rest =>
      match resp !! status_code with
      | Some r =>
          match _gen_schema_for_content response_body with
          | Raise e => Raise e
          | Ok s =>
              overlay_responses rest
                (<[status_code :=
                     mkResponse (r_description r) (Some (SchemaContent s))]>
                   resp)
          end
      | None => overlay_responses rest resp
      end
  end.

(** [_gen_responses(method, resp_object)]; an absent or empty [resp_object]
    is the empty list. *)
Definition _gen_responses (method : string)
    (resp_object : list (string * content_input))
    : result (gmap string response) :=
  let resp : gmap string response :=
    <["500" := mkResponse
        "Unexpected error. Please check the response body for the stack trace."
        None]>
    (<["400" := mkResponse
        "Operation exception. Please check the response body for details."
        None]> ∅) in
  let resp :=
    if String.eqb (lower method) "get"
    then <["200" := mkResponse "OK" (Some GenericObject)]> resp else resp in
  let resp :=
    if String.eqb (lower method) "post"
    then <["201" := mkResponse "Resource created." (Some GenericObject)]> resp
    else resp in
  let resp :=
    if String.eqb (lower method) "put"
    then <["200" := mkResponse "Resource updated." (Some GenericObject)]> resp
    else resp in
  let resp :=
    if String.eqb (lower method) "delete"
    then <["204" := mkResponse "Resource deleted." (Some GenericObject)]> resp
    else resp in
  let resp :=
    if bool_decide (lower method ∈ ["post"; "put"; "delete"])
    then <["202" := mkResponse
             "Operation is still executing. Please check the task queue."
             (Some GenericObject)]> resp
    else resp in
  overlay_responses resp_object resp.

(** ** Parameter objects *)

(** An entry of the ['parameters'] list of an operation; ['required'] and
    ['allowEmptyValue'] are either absent or [True]. *)
Record parameter_obj : Type := mkParameterObj {
  po_name : string;
  po_in : string;
  po_schema_type : string;
  po_description : option string;
  po_required : bool;
  po_allowEmptyValue : bool;
  po_default : option value
}.

Definition gen_param (prm : param) (location : string)
    : result parameter_obj :=
  let _type :=
    match p_type prm with
    | Some t => _type_to_str t
    | None => _gen_type prm
    end in
  let description :=
    match p_description prm with
    | Some d => if nonempty d then Some d else None
    | None => None
    end in
  if p_required prm then
    Ok (mkParameterObj (p_name prm) location _type description true false None)
  else
    match p_default prm with
    | None => Raise (KeyError "default")
    | Some VNone =>
        Ok (mkParameterObj (p_name prm) location _type description false true
              None)
    | Some v =>
        Ok (mkParameterObj (p_name prm) location _type description false false
              (Some v))
    end.

(** [_gen_params(params, location)]. *)
Fixpoint _gen_params (params : list param) (location : string)
    : result (list parameter_obj) :=
  match params with
  | [] => Ok []
  | prm :: params' =>
      match gen_param prm location with
      | Raise e => Raise e
      | Ok res =>
          match _gen_params params' location with
          | Raise e => Raise e
          | Ok parameters => Ok (res :: parameters)
          end
      end
  end.

(** ** Controllers, handlers and endpoints *)

(** Modelled from the spec: the classes behind [endpoint.ctrl],
    [endpoint.func] and the endpoint descriptor itself are declared in the
    [controllers] package, outside this file.  A descriptor holds its method,
    its controller, its handler with the attached metadata, the
    internal-only flag and the three ordered parameter lists.  The lists
    are derived from the route and the signature of the handler; the data
    model calls the descriptors derived, read-only and reconstructed fresh,
    so [endpoint.path_params], [endpoint.query_params] and
    [endpoint.body_params] give a list of their own on every access, and the
    fields below are what each access yields. *)
Record ctrl_doc_info : Type := mkCtrlDocInfo {
  cd_tag : string;
  cd_tag_descr : string
}.

Record controller : Type := mkController {
  c_name : string;
  c_doc_info : option ctrl_doc_info
}.

Record func_doc_info : Type := mkFuncDocInfo {
  fd_summary : string;
  fd_tag : string;
  fd_response : list (string * content_input);
  fd_parameters : list override
}.

Record handler : Type := mkHandler {
  h_doc : option string;
  h_doc_info : option func_doc_info;
  h_body_params_schema : bool
}.

Record endpoint : Type := mkEndpoint {
  method : string;
  ctrl : controller;
  func : handler;
  is_backend_api : bool;
  path_params : list param;
  query_params : list param;
  body_params : list param
}.

(** [_get_tag(endpoint)]. *)
Definition _get_tag (e : endpoint) : string :=
  let tag := c_name (ctrl e) in
  match h_doc_info (func e) with
  | Some d =>
      if nonempty (fd_tag d) then fd_tag d
      else
        match c_doc_info (ctrl e) with
        | Some cd => if nonempty (cd_tag cd) then cd_tag cd else tag
        | None => tag
        end
  | None =>
      match c_doc_info (ctrl e) with
      | Some cd => if nonempty (cd_tag cd) then cd_tag cd else tag
      | None => tag
      end
  end.

(** ** Sorting *)

(** [sorted(l, key=...)] and [list.sort(key=...)] are stable; so is this
    insertion sort: an element is placed before the first element whose key
    is not smaller than its own. *)
Fixpoint insert_by {A K} (leb : K → K → bool) (key : A → K) (x : A)
    (l : list A) : list A :=
  match l with
  | [] => [x]
  | y :: l' =>
      if leb (key x) (key y) then x :: l else y :: insert_by leb key x l'
  end.

Definition sorted_by {A K} (leb : K → K → bool) (key : A → K) (l : list A)
    : list A :=
  foldr (insert_by leb key) [] l.

(** ** Tag assembler *)

Definition NO_DESCRIPTION_AVAILABLE : string := "*No description available*".

Record tag : Type := mkTag {
  t_name : string;
  t_description : string
}.

(** The controllers that [_gen_tags] adds to its set [list_of_ctrl], one
    occurrence per selected endpoint. *)
Definition selected_ctrls (all_endpoints : bool)
    (ENDPOINT_MAP : gmap string (list endpoint)) : list controller :=
  map ctrl
    (List.filter (λ e, negb (is_backend_api e) || all_endpoints)
       (concat (map snd (map_to_list ENDPOINT_MAP)))).

(** The order in which a Python set is iterated is not specified: any list
    with the elements of the set may be the one the loop sees. *)
Definition iteration_of (all_endpoints : bool)
    (ENDPOINT_MAP : gmap string (list endpoint)) (order : list controller)
    : Prop :=
  ∀ c, c ∈ order ↔ c ∈ selected_ctrls all_endpoints ENDPOINT_MAP.

(** Tag name and tag description of one controller. *)
Definition ctrl_tag (c : controller) : string * string :=
  match c_doc_info c with
  | Some d => (if nonempty (cd_tag d) then cd_tag d else c_name c,
               cd_tag_descr d)
  | None => (c_name c, "")
  end.

(** One iteration of the loop that fills [tag_map]. *)
Definition tag_map_step (tag_map : list (string * string)) (c : controller)
    : list (string * string) :=
  let '(tag_name, tag_descr) := ctrl_tag c in
  match dict_get tag_map tag_name with
  | Some v =>
      if nonempty v then tag_map else dict_set tag_map tag_name tag_descr
  | None => dict_set tag_map tag_name tag_descr
  end.

(** [_gen_tags], from the iteration [list_of_ctrl] of the controller set. *)
Definition _gen_tags (list_of_ctrl : list controller) : list tag :=
  let tag_map := foldl tag_map_step [] list_of_ctrl in
  let tags :=
    map (λ '(k, v),
           mkTag k (if nonempty v then v else NO_DESCRIPTION_AVAILABLE))
      tag_map in
  sorted_by String.leb t_name tags.

(** ** State and exceptions *)

(** Computations that work on a state of type [S] and may raise: the state
    reached is returned also when an exception is raised. *)
Definition M (S A : Type) : Type := S → S * result A.

Definition m_ret {S A} (a : A) : M S A := λ s, (s, Ok a).

Definition m_bind {S A B} (m : M S A) (k : A → M S B) : M S B :=
  λ s,
    match m s with
    | (s', Ok a) => k a s'
    | (s', Raise e) => (s', Raise e)
    end.

Definition m_lift {S A} (r : result A) : M S A := λ s, (s, r).

Definition m_gets {S A} (f : S → A) : M S A := λ s, (s, Ok (f s)).

Notation "'do' x <- c ; k" := (m_bind c (λ x, k))
  (at level 10, x name, c at level 100, k at level 200).
Notation "'do' ' pat <- c ; k" := (m_bind c (λ x, match x with pat => k end))
  (at level 10, pat pattern, c at level 100, k at level 200).

(** ** Path assembler *)

(** An operation object: the value stored under a method of a path. *)
Record operation : Type := mkOperation {
  op_tags : list string;
  op_description : option string;
  op_parameters : list parameter_obj;
  op_responses : gmap string response;
  op_summary : option string;
  op_requestBody : option schema
}.

Definition set_requestBody (s : schema) (op : operation) : operation :=
  mkOperation (op_tags op) (op_description op) (op_parameters op)
    (op_responses op) (op_summary op) (Some s).

(** Modelled from the spec: [cls._add_param_info(endpoint.xxx_params,
    p_info)], where the accessor [endpoint.xxx_params] belongs to the
    endpoint class, outside this file.  The accessor derives the list anew,
    so the list that [_add_param_info] updates in place and returns is the
    caller's own, and the endpoint is left as it is. *)
Definition merge_params (get : endpoint → list param)
    (p_info : list override) : M endpoint (list param) :=
  do l <- m_gets get;
  m_ret (_add_param_info l p_info).

Definition is_empty {A} (l : list A) : bool :=
  match l with
  | [] => true
  | _ => false
  end.

(** The body of the loop of [_gen_paths] over the endpoints of a path, after
    the test of [is_backend_api]: the operation object of one endpoint. *)
Definition gen_operation : M endpoint operation :=
  do method <- m_gets method;
  do func <- m_gets func;
  let summary :=
    match h_doc_info func with
    | Some d => fd_summary d
    | None => ""
    end in
  let resp :=
    match h_doc_info func with
    | Some d => fd_response d
    | None => []
    end in
  let p_info :=
    match h_doc_info func with
    | Some d => fd_parameters d
    | None => []
    end in
  do from_path <-
    (do l <- m_gets path_params;
     if is_empty l then m_ret []
     else
       do merged <- merge_params path_params p_info;
       m_lift (_gen_params merged "path"));
  do from_query <-
    (do l <- m_gets query_params;
     if is_empty l then m_ret []
     else
       do merged <- merge_params query_params p_info;
       m_lift (_gen_params merged "query"));
  let params := (from_path ++ from_query)%list in
  do tag <- m_gets _get_tag;
  do responses <- m_lift (_gen_responses method resp);
  let op :=
    mkOperation [tag] (h_doc func) params responses
      (if nonempty summary then Some summary else None) None in
  if bool_decide (lower method ∈ ["post"; "put"]) then
    do op <-
      (do l <- m_gets body_params;
       if is_empty l then m_ret op
       else
         do body_params <-
           (if h_body_params_schema func
            then m_ret (map override_as_param p_info)
            else merge_params body_params p_info);
         do s <- m_lift (_gen_schema_for_content (PlainParams body_params));
         m_ret (set_requestBody s op));
    do l <- m_gets query_params;
    if is_empty l then m_ret op
    else
      do query_params <- merge_params query_params p_info;
      do s <- m_lift (_gen_schema_for_content (PlainParams query_params));
      m_ret (set_requestBody s op)
  else m_ret op.

Definition method_order : list string := ["get"; "post"; "put"; "delete"].

(** [l.index(x)]. *)
Fixpoint list_index (x : string) (l : list string) : result nat :=
  match l with
  | [] => Raise ValueError
  | y :: l' =>
      if String.eqb x y then Ok 0%nat
      else rbind (list_index x l') (λ n, Ok (S n))
  end.

Fixpoint result_map {A B} (f : A → result B) (l : list A) : result (list B) :=
  match l with
  | [] => Ok []
  | x :: l' =>
      rbind (f x) (λ y, rbind (result_map f l') (λ ys, Ok (y :: ys)))
  end.

(** [sorted(endpoints, key=lambda e: method_order.index(e.method.lower()))].
    The sorted list holds the very endpoint objects of the registry: each is
    paired with its position in [endpoints], its place in the state. *)
Definition endpoint_list (endpoints : list endpoint)
    : result (list (nat * endpoint)) :=
  rbind
    (result_map
       (λ ie : nat * endpoint,
          rbind (list_index (lower (method ie.2)) method_order)
            (λ k, Ok (k, ie)))
       (imap pair endpoints))
    (λ keyed, Ok (map snd (sorted_by Nat.leb fst keyed))).

(** Run a computation on the endpoint object at position [i]. *)
Definition at_index {A} (i : nat) (e : endpoint) (m : M endpoint A)
    : M (list endpoint) A :=
  λ es, let '(e', r) := m e in (<[i := e']> es, r).

(** The loop of [_gen_paths] over the sorted endpoints of one path; the
    result is the flag [skip] and the dictionary [methods]. *)
Fixpoint gen_methods (all_endpoints : bool)
    (endpoint_list : list (nat * endpoint)) (methods : gmap string operation)
    : M (list endpoint) (bool * gmap string operation) :=
  match endpoint_list with
  | [] => m_ret (false, methods)
  | (i, endpoint) :: rest =>
      if is_backend_api endpoint && negb all_endpoints
      then m_ret (true, methods)
      else
        do op <- at_index i endpoint gen_operation;
        gen_methods all_endpoints rest
          (<[lower (method endpoint) := op]> methods)
  end.

(** One iteration of the loop of [_gen_paths] over the paths. *)
Definition gen_path (all_endpoints : bool)
    : M (list endpoint) (bool * gmap string operation) :=
  do endpoints <- m_gets id;
  do endpoint_list <- m_lift (endpoint_list endpoints);
  gen_methods all_endpoints endpoint_list ∅.

(** Run a computation on the endpoint list registered under [path]. *)
Definition at_path {A} (path : string) (endpoints : list endpoint)
    (m : M (list endpoint) A) : M (gmap string (list endpoint)) A :=
  λ reg, let '(endpoints', r) := m endpoints in
         (<[path := endpoints']> reg, r).

Fixpoint gen_paths_loop (all_endpoints : bool)
    (items : list (string * list endpoint))
    (paths : gmap string (gmap string operation))
    : M (gmap string (list endpoint)) (gmap string (gmap string operation)) :=
  match items with
  | [] => m_ret paths
  | (path, endpoints) :: rest =>
      do '(skip, methods) <- at_path path endpoints (gen_path all_endpoints);
      gen_paths_loop all_endpoints rest
        (if skip : bool then paths else <[path := methods]> paths)
  end.

(** [_gen_paths(all_endpoints)], with the registry [ENDPOINT_MAP] as the
    state. *)
Definition _gen_paths (all_endpoints : bool)
    : M (gmap string (list endpoint)) (gmap string (gmap string operation)) :=
  do items <- m_gets (λ ENDPOINT_MAP,
                        sorted_by String.leb fst (map_to_list ENDPOINT_MAP));
  gen_paths_loop all_endpoints items ∅.

(** ** Spec assembler *)

(** [s.split(sep, 1)[1]]: what follows the first occurrence of [sep]. *)
Fixpoint after_first (sep s : string) : result string :=
  if String.prefix sep s
  then Ok (String.substring (String.length sep)
             (String.length s - String.length sep) s)
  else
    match s with
    | EmptyString => Raise IndexError
    | String _ s' => after_first sep s'
    end.

Record spec : Type := mkSpec {
  openapi : string;
  info_description : string;
  info_version : string;
  info_title : string;
  host : string;
  basePath : string;
  servers : list string;
  tags : list tag;
  schemes : list string;
  paths : gmap string (gmap string operation)
}.

(** [_gen_spec(all_endpoints, base_url, offline)]; [request_base] is
    [cherrypy.request.base] and [list_of_ctrl] the iteration of the
    controller set seen by [_gen_tags]. *)
Definition _gen_spec (all_endpoints : bool) (base_url : string)
    (offline : bool) (request_base : string) (list_of_ctrl : list controller)
    : M (gmap string (list endpoint)) spec :=
  let base_url := if all_endpoints then "" else base_url in
  do host <- m_lift (if negb offline then after_first "://" request_base
                     else Ok "example.com");
  do paths <- _gen_paths all_endpoints;
  let base_url := if nonempty base_url then base_url else "/" in
  let scheme := if offline then "https" else "http" in
  m_ret (mkSpec "3.0.0" "This is the official Ceph NVMeOF API" "v1"
           "ceph-nvmeof REST API" host base_url
           [String.append (if negb offline then request_base else "")
              base_url]
           (_gen_tags list_of_ctrl) [scheme] paths).

(** ** Notions used in the statements *)

(** [s] starts with [pre]; [sub] occurs in [s]. *)
Definition starts_with (pre s : string) : Prop :=
  ∃ rest, s = String.append pre rest.

Definition occurs_in (sub s : string) : Prop :=
  ∃ before after, s = String.append before (String.append sub after).

(** None of the name rules of the type inferencer applies to [n]. *)
Definition no_name_rule (n : string) : Prop :=
  ¬ starts_with "is_" n ∧ ¬ occurs_in "size" n ∧ ¬ occurs_in "count" n ∧
  ¬ occurs_in "num" n.

(** The six schema primitives. *)
Definition schema_primitives : list string :=
  ["string"; "integer"; "boolean"; "array"; "number"; "object"].

(** The explicit parameter descriptions attached to the handler of an
    endpoint ([p_info] in [_gen_paths]). *)
Definition p_info_of (e : endpoint) : list override :=
  match h_doc_info (func e) with
  | Some d => fd_parameters d
  | None => []
  end.

(** The number of parameter objects of an operation of a generated
    document. *)
Definition parameter_count
    (doc : result (gmap string (gmap string operation)))
    (path method : string) : option nat :=
  match doc with
  | Ok paths =>
      match paths !! path with
      | Some methods =>
          (λ op, length (op_parameters op)) <$> methods !! method
      | None => None
      end
  | Raise _ => None
  end.

(** A registry with one public PUT endpoint that has a body parameter and
    a query parameter; its handler describes the query parameter and a
    required field nested in the parameters. *)
Definition images_registry : gmap string (list endpoint) :=
  {["/images" :=
      [mkEndpoint "PUT" (mkController "Image" None)
         (mkHandler (Some "Resize an image.")
            (Some (mkFuncDocInfo "" "" []
                     [mkOverride "force" Tbool "Skip the checks" false false
                        None None;
                      mkOverride "detail" Tstr "Level of detail" true true
                        None None]))
            false)
         false []
         [mkParam "force" false (Some (VBool false)) None None None]
         [mkParam "size" true None None None None]]]}.

(** A registry with one path holding a public POST endpoint, with body and
    query parameters, and an internal DELETE endpoint; the explicit
    description of the POST handler names none of its parameters. *)
Definition volumes_registry : gmap string (list endpoint) :=
  {["/volumes" :=
      [mkEndpoint "DELETE" (mkController "Volume" None)
         (mkHandler None None false) true
         [mkParam "volume_id" true None None None None] [] [];
       mkEndpoint "POST" (mkController "Volume" None)
         (mkHandler (Some "Create a volume.")
            (Some (mkFuncDocInfo "Create" "" []
                     [mkOverride "sise" Tint "Size in bytes" true false
                        None None]))
            false)
         false []
         [mkParam "force" false (Some (VBool false)) None None None]
         [mkParam "size" true None None None None]]]}.

(** Whether a computation returned normally. *)
Definition is_ok {A} (r : result A) : bool :=
  match r with
  | Ok _ => true
  | Raise _ => false
  end.

(** The explicit types that the type mapper sends to "array". *)
Definition is_sequence_type (t : marker) : bool :=
  match t with
  | Tlist | Ttuple => true
  | _ => false
  end.

(** The value that [_add_param_info] stores under ['nested_params'] for
    the explicit description [p]: the merge of its nested descriptions
    into an empty list, when it has any. *)
Definition nested_merged (p : override) : option (list param) :=
  match o_nested_params p with
  | None => None
  | Some qs => Some (_add_param_info [] qs)
  end.

(** What the merger never changes of a registered parameter, and what a
    description flagged nested contributes to the entry it creates. *)
Definition param_base (prm : param) : string * bool * option value :=
  (p_name prm, p_required prm, p_default prm).

Definition override_base (p : override) : string * bool * option value :=
  (o_name p, o_required p, o_default p).

(** The update of one registered parameter by a matching description. *)
Definition overwrite (p : override) (parameter : param) : param :=
  mkParam (p_name parameter) (p_required parameter) (p_default parameter)
    (Some (o_type p)) (Some (o_description p))
    (match nested_merged p with
     | Some l => Some l
     | None => p_nested_params parameter
     end).

(** ** Documentation page *)

(** The double quote and the line feed. *)
Definition dq : string := String (ascii_of_nat 34) EmptyString.
Definition nl : string := String (ascii_of_nat 10) EmptyString.

(** The template of [api_key_callback], up to the token. *)
Definition callback_before : string :=
  String.concat nl
    [", onComplete: () => {";
     "                        ui.preauthorizeApiKey('jwt', '"].

(** The template of [api_key_callback], after the token. *)
Definition callback_after : string :=
  String.concat nl
    ["');";
     "                    }";
     "        "].

(** The template of the page, up to the URL of the document. *)
Definition page_before_url : string :=
  String.concat nl
    ["";
     "        <!DOCTYPE html>";
     "        <html>";
     "        <head>";
     "            <meta charset=" +:+ dq +:+ "UTF-8" +:+ dq +:+ ">";
     "            <meta name=" +:+ dq +:+ "referrer" +:+ dq +:+ " content=" +:+ dq +:+ "no-referrer" +:+ dq +:+ " />";
     "            <link rel=" +:+ dq +:+ "stylesheet" +:+ dq +:+ " type=" +:+ dq +:+ "text/css" +:+ dq;
     "                  href=" +:+ dq +:+ "/static/swagger-ui.css" +:+ dq +:+ " >";
     "            <style>";
     "                html";
     "                {";
     "                    box-sizing: border-box;";
     "                    overflow: -moz-scrollbars-vertical;";
     "                    overflow-y: scroll;";
     "                }";
     "                *,";
     "                *:before,";
     "                *:after";
     "                {";
     "                    box-sizing: inherit;";
     "                }";
     "                body {";
     "                    margin:0;";
     "                    background: #fafafa;";
     "                }";
     "            </style>";
     "        </head>";
     "        <body>";
     "        <div id=" +:+ dq +:+ "swagger-ui" +:+ dq +:+ "></div>";
     "        <script src=" +:+ dq +:+ "/static/swagger-ui-bundle.js" +:+ dq +:+ ">";
     "        </script>";
     "        <script>";
     "            window.onload = function() {";
     "                const ui = SwaggerUIBundle({";
     "                    url: '"].

(** The template of the page, between the URL and the callback. *)
Definition page_before_callback : string :=
  String.concat nl
    ["',";
     "                    dom_id: '#swagger-ui',";
     "                    presets: [";
     "                        SwaggerUIBundle.presets.apis";
     "                    ],";
     "                    layout: " +:+ dq +:+ "BaseLayout" +:+ dq;
     "                    "].

(** The template of the page, after the callback. *)
Definition page_after_callback : string :=
  String.concat nl
    ["";
     "                })";
     "                window.ui = ui";
     "            }";
     "        </script>";
     "        </body>";
     "        </html>";
     "        "].


(** [s.split(sep, 1)] for a one-character separator, when the separator
    occurs: what is before and what is after its first occurrence. *)
Fixpoint split_first (sep : ascii) (s : string) : option (string * string) :=
  match s with
  | EmptyString => None
  | String c s' =>
      if Ascii.eqb c sep then Some (EmptyString, s')
      else
        match split_first sep s' with
        | Some (before, after) => Some (String c before, after)
        | None => None
        end
  end.

(** The value of [jwt_token] in [_swagger_ui_page]: [auth_cookie] is the
    value of the cookie named token and [auth_header] the authorization
    header, when present.  Unpacking [auth_header.split(' ', 1)] into two
    names raises [ValueError] when the header has no space. *)
Definition jwt_token (auth_header auth_cookie : option string)
    : result string :=
  match auth_cookie with
  | Some value => Ok value
  | None =>
      match auth_header with
      | Some header =>
          match split_first " " header with
          | Some (scheme, params) =>
              if String.eqb (lower scheme) "bearer" then Ok params else Ok ""
          | None => Raise ValueError
          end
      | None => Ok ""
      end
  end.

(** [_swagger_ui_page(all_endpoints)]; [base] is [cherrypy.request.base]. *)
Definition _swagger_ui_page (all_endpoints : bool) (base : string)
    (auth_header auth_cookie : option string) : result string :=
  let spec_url :=
    if all_endpoints then base +:+ "/docs/api-all.json"
    else base +:+ "/docs/api.json" in
  rbind (jwt_token auth_header auth_cookie) (λ jwt_token,
    let api_key_callback := callback_before +:+ jwt_token +:+ callback_after in
    Ok (page_before_url +:+ spec_url +:+ page_before_callback +:+
        api_key_callback +:+ page_after_callback)).

(** The endpoints [api.json] and [api-all.json]. *)
Definition api_json (request_base : string) (list_of_ctrl : list controller)
    : M (gmap string (list endpoint)) spec :=
  _gen_spec false "/" false request_base list_of_ctrl.

Definition api_all_json (request_base : string)
    (list_of_ctrl : list controller)
    : M (gmap string (list endpoint)) spec :=
  _gen_spec true "/" false request_base list_of_ctrl.

(** * Properties *)

(** ** Strings *)

Lemma prefix_starts_with (pre s : string) :
  String.prefix pre s = true ↔ starts_with pre s.
Proof.
  unfold starts_with. revert s.
  induction pre as [|c pre IH]; intros s.
  - split; [intros _; by exists s | by destruct s].
  - destruct s as [|d s].
    + split; [done | intros [rest Hrest]; discriminate].
    + cbn. destruct (Ascii.ascii_dec c d) as [->|Hne].
      * rewrite IH. split; intros [rest Hrest]; exists rest.
        -- by rewrite Hrest.
        -- by injection Hrest.
      * split; [done | intros [rest Hrest]; by injection Hrest].
Qed.

Lemma contains_occurs_in (sub s : string) :
  contains sub s = true ↔ occurs_in sub s.
Proof.
  unfold occurs_in. induction s as [|c s IH].
  - cbn [contains]. rewrite orb_false_r, prefix_starts_with. split.
    + intros [rest ->]. by exists "", rest.
    + intros [before [after H]]. destruct before; cbn in H.
      * by exists after.
      * discriminate.
  - cbn [contains]. rewrite orb_true_iff, IH.
    rewrite prefix_starts_with. split.
    + intros [[rest ->] | [before [after ->]]].
      * by exists "", rest.
      * by exists (String c before), after.
    + intros [before [after H]]. destruct before as [|d before]; cbn in H.
      * left. by exists after.
      * right. injection H as -> ->. by exists before, after.
Qed.

Lemma contains_false (sub s : string) :
  ¬ occurs_in sub s → contains sub s = false.
Proof.
  intros H. destruct (contains sub s) eqn:E; [|done].
  by apply contains_occurs_in in E.
Qed.

Lemma startswith_false (pre s : string) :
  ¬ starts_with pre s → startswith pre s = false.
Proof.
  intros H. unfold startswith. destruct (String.prefix pre s) eqn:E; [|done].
  by apply prefix_starts_with in E.
Qed.

(** ** Type inference *)

Lemma gen_type_no_name_rule (p : param) :
  no_name_rule (p_name p) →
  _gen_type p =
    if isinstance_bool (p_default p) then "boolean"
    else if isinstance_int (p_default p) then "integer" else "string".
Proof.
  intros (H1 & H2 & H3 & H4). unfold _gen_type.
  rewrite (startswith_false _ _ H1), (contains_false _ _ H2),
    (contains_false _ _ H3), (contains_false _ _ H4).
  by repeat case_match.
Qed.

(** C4: the type inferencer applies its rules in a fixed priority order:
    a name starting with "is_" gives boolean whatever the rest of the name
    and the default value are; otherwise a name containing "size", "count"
    or "num" gives integer; otherwise a boolean default gives boolean, an
    integer default gives integer, and anything else gives string.  In
    particular "is_count" is inferred boolean. *)
Theorem gen_type_priority (p : param) :
  (starts_with "is_" (p_name p) → _gen_type p = "boolean") ∧
  (¬ starts_with "is_" (p_name p) → occurs_in "size" (p_name p) →
   _gen_type p = "integer") ∧
  (¬ starts_with "is_" (p_name p) → occurs_in "count" (p_name p) →
   _gen_type p = "integer") ∧
  (¬ starts_with "is_" (p_name p) → occurs_in "num" (p_name p) →
   _gen_type p = "integer") ∧
  (no_name_rule (p_name p) → (∃ b, p_default p = Some (VBool b)) →
   _gen_type p = "boolean") ∧
  (no_name_rule (p_name p) → (∃ n, p_default p = Some (VInt n)) →
   _gen_type p = "integer") ∧
  (no_name_rule (p_name p) → (∀ b, p_default p ≠ Some (VBool b)) →
   (∀ n, p_default p ≠ Some (VInt n)) → _gen_type p = "string") ∧
  (∀ required dflt type description nested_params,
     _gen_type (mkParam "is_count" required dflt type description
                  nested_params) = "boolean").
Proof.
  repeat split.
  - intros H. apply prefix_starts_with in H.
    unfold _gen_type, startswith. by rewrite H.
  - intros H1 H2. apply contains_occurs_in in H2.
    unfold _gen_type. by rewrite (startswith_false _ _ H1), H2.
  - intros H1 H2. apply contains_occurs_in in H2.
    unfold _gen_type. rewrite (startswith_false _ _ H1), H2.
    by destruct (contains "size" (p_name p)).
  - intros H1 H2. apply contains_occurs_in in H2.
    unfold _gen_type. rewrite (startswith_false _ _ H1), H2.
    by destruct (contains "size" (p_name p)), (contains "count" (p_name p)).
  - intros H [b Hb]. rewrite (gen_type_no_name_rule _ H), Hb. done.
  - intros H [n Hn]. rewrite (gen_type_no_name_rule _ H), Hn. done.
  - intros H Hb Hn. rewrite (gen_type_no_name_rule _ H).
    destruct (p_default p) as [[]|]; try done.
    + by destruct (Hb b).
    + by destruct (Hn n).
Qed.

Ltac refute_occurrence :=
  let H := fresh in
  intros H;
  first [apply prefix_starts_with in H | apply contains_occurs_in in H];
  discriminate H.

Lemma gen_type_priority_witness :
  _gen_type (mkParam "is_active" false (Some (VInt 3)) None None None)
    = "boolean" ∧
  _gen_type (mkParam "page_size" true None None None None) = "integer" ∧
  _gen_type (mkParam "enabled" false (Some (VBool true)) None None None)
    = "boolean" ∧
  _gen_type (mkParam "label" false (Some (VStr "x")) None None None)
    = "string".
Proof.
  split; [|split; [|split]].
  - apply (proj1 (gen_type_priority _)). by exists "active".
  - apply (proj1 (proj2 (gen_type_priority _))).
    + refute_occurrence.
    + by exists "page_", "".
  - apply (proj1 (proj2 (proj2 (proj2 (proj2 (gen_type_priority _)))))).
    + repeat split; refute_occurrence.
    + by exists true.
  - apply (proj1 (proj2 (proj2 (proj2 (proj2 (proj2 (proj2
             (gen_type_priority _)))))))).
    + repeat split; refute_occurrence.
    + done.
    + done.
Defined.

(** ** Explicit-type mapping *)

(** C8: the explicit-type mapper is a total function into the six schema
    primitives: str, int, bool, list, tuple and float map to "string",
    "integer", "boolean", "array", "array" and "number", and every other
    marker maps to "object"; no marker makes it raise. *)
Theorem type_to_str_total (m : marker) :
  _type_to_str m ∈ schema_primitives ∧
  _type_to_str Tstr = "string" ∧
  _type_to_str Tint = "integer" ∧
  _type_to_str Tbool = "boolean" ∧
  _type_to_str Tlist = "array" ∧
  _type_to_str Ttuple = "array" ∧
  _type_to_str Tfloat = "number" ∧
  (m ∉ [Tstr; Tint; Tbool; Tlist; Ttuple; Tfloat] → _type_to_str m = "object").
Proof.
  split; [|repeat split].
  - unfold schema_primitives. destruct m; simpl; set_solver.
  - intros H. destruct m; try done; exfalso; apply H; set_solver.
Qed.

Lemma type_to_str_total_witness :
  _type_to_str (Tclass "dict") = "object" ∧
  _type_to_str (Mseq [Tint]) = "object".
Proof.
  split.
  - apply (type_to_str_total (Tclass "dict")).
    intros H. repeat (apply elem_of_cons in H as [H|H]; [discriminate H|]).
    by apply elem_of_nil in H.
  - apply (type_to_str_total (Mseq [Tint])).
    intros H. repeat (apply elem_of_cons in H as [H|H]; [discriminate H|]).
    by apply elem_of_nil in H.
Defined.

(** ** Parameter merger *)

Lemma add_param_info_cons (parameters : list param) (p : override)
    (rest : list override) :
  _add_param_info parameters (p :: rest) =
  _add_param_info (add_param_info_step p parameters) rest.
Proof. done. Qed.

Lemma add_param_info_step_not_nested (p : override) (parameters : list param) :
  o_nested p = false →
  ∃ nested_merged : option (list param),
    add_param_info_step p parameters =
    map (λ parameter,
           if String.eqb (o_name p) (p_name parameter) then
             mkParam (p_name parameter) (p_required parameter)
               (p_default parameter) (Some (o_type p))
               (Some (o_description p))
               (match nested_merged with
                | Some l => Some l
                | None => p_nested_params parameter
                end)
           else parameter) parameters.
Proof.
  destruct p as [n t d r nested dflt np]; simpl. intros ->.
  destruct np; simpl; [eexists (Some _) | exists None]; reflexivity.
Qed.

Lemma add_param_info_step_no_match (p : override) (parameters : list param) :
  o_nested p = false →
  (∀ parameter, parameter ∈ parameters → p_name parameter ≠ o_name p) →
  add_param_info_step p parameters = parameters.
Proof.
  intros Hn Hno. destruct (add_param_info_step_not_nested p parameters Hn)
    as [nm ->].
  induction parameters as [|q l IH]; [done|]. simpl.
  rewrite IH by (intros q' Hq'; apply Hno; by right).
  destruct (String.eqb_spec (o_name p) (p_name q)) as [E|E]; [|done].
  exfalso. apply (Hno q); [by left | done].
Qed.

(** C5: for an explicit description that is not flagged nested, every
    registered parameter with exactly that name gets the explicit type and
    description, whatever it had before, and keeps its name, required flag
    and default; the other parameters and the length of the list are
    unchanged; when no registered parameter has that name the description
    has no effect at all: the list returned is the base list, and no
    error is raised. *)
Theorem add_param_info_not_nested (parameters : list param) (p : override) :
  o_nested p = false →
  length (_add_param_info parameters [p]) = length parameters ∧
  (∀ i parameter,
     parameters !! i = Some parameter → p_name parameter = o_name p →
     ∃ merged, _add_param_info parameters [p] !! i = Some merged ∧
       p_type merged = Some (o_type p) ∧
       p_description merged = Some (o_description p) ∧
       p_name merged = p_name parameter ∧
       p_required merged = p_required parameter ∧
       p_default merged = p_default parameter) ∧
  (∀ i parameter,
     parameters !! i = Some parameter → p_name parameter ≠ o_name p →
     _add_param_info parameters [p] !! i = Some parameter) ∧
  ((∀ parameter, parameter ∈ parameters → p_name parameter ≠ o_name p) →
   _add_param_info parameters [p] = parameters ∧
   ∀ rest, _add_param_info parameters (p :: rest) =
           _add_param_info parameters rest).
Proof.
  intros Hn.
  change (_add_param_info parameters [p])
    with (add_param_info_step p parameters).
  destruct (add_param_info_step_not_nested p parameters Hn) as [nm Hstep].
  split; [|split; [|split]].
  - by rewrite Hstep, length_map.
  - intros i q Hi Hq. rewrite Hstep, list_lookup_fmap, Hi. simpl.
    rewrite <- Hq, String.eqb_refl. eauto 10.
  - intros i q Hi Hq. rewrite Hstep, list_lookup_fmap, Hi. simpl.
    destruct (String.eqb_spec (o_name p) (p_name q)); [done|done].
  - intros Hno. split; [|intros rest; rewrite add_param_info_cons];
      by rewrite add_param_info_step_no_match.
Qed.

Lemma add_param_info_not_nested_witness :
  let base := [mkParam "pool" true None None None None;
               mkParam "count" false (Some (VInt 1)) None None None] in
  let p := mkOverride "pool" Tstr "Name of the pool" true false None None in
  let q := mkOverride "poool" Tstr "Name of the pool" true false None None in
  _add_param_info base [p] !! 1%nat = base !! 1%nat ∧
  _add_param_info base [q] = base.
Proof.
  intros base p q. split.
  - apply (proj1 (proj2 (proj2
      (add_param_info_not_nested base p eq_refl))) 1%nat); done.
  - apply (proj2 (proj2 (proj2 (add_param_info_not_nested base q eq_refl)))).
    intros prm H.
    repeat (apply elem_of_cons in H as [->|H]; [done|]).
    by apply elem_of_nil in H.
Defined.

(** ** Response builder *)

Ltac response_codes H :=
  unfold _gen_responses; rewrite H;
  match goal with
  | |- context [bool_decide ?P] =>
      let b := eval vm_compute in (bool_decide P) in
      change (bool_decide P) with b
  end;
  cbn [String.eqb Ascii.eqb Bool.eqb overlay_responses];
  eexists; (split; [reflexivity|]);
  rewrite ?dom_insert_L, dom_empty_L; set_solver.

(** C6: without explicit response bodies the response builder returns, for
    every method, a map that has the baseline codes 400 and 500, and whose
    key set is exactly {200, 400, 500} for GET, {201, 202, 400, 500} for
    POST, {200, 202, 400, 500} for PUT and {202, 204, 400, 500} for DELETE
    (the method is compared in lower case). *)
Theorem gen_responses_status_codes (method : string) :
  (∃ resp, _gen_responses method [] = Ok resp ∧
           ({["400"; "500"]} : gset string) ⊆ dom resp) ∧
  (lower method = "get" →
   ∃ resp, _gen_responses method [] = Ok resp ∧
           dom resp = ({["200"; "400"; "500"]} : gset string)) ∧
  (lower method = "post" →
   ∃ resp, _gen_responses method [] = Ok resp ∧
           dom resp = ({["201"; "202"; "400"; "500"]} : gset string)) ∧
  (lower method = "put" →
   ∃ resp, _gen_responses method [] = Ok resp ∧
           dom resp = ({["200"; "202"; "400"; "500"]} : gset string)) ∧
  (lower method = "delete" →
   ∃ resp, _gen_responses method [] = Ok resp ∧
           dom resp = ({["202"; "204"; "400"; "500"]} : gset string)).
Proof.
  split; [|repeat split; intros H].
  - unfold _gen_responses. cbn [overlay_responses].
    eexists; split; [reflexivity|].
    destruct (String.eqb (lower method) "get"),
      (String.eqb (lower method) "post"), (String.eqb (lower method) "put"),
      (String.eqb (lower method) "delete"),
      (bool_decide (lower method ∈ ["post"; "put"; "delete"]));
      rewrite ?dom_insert_L, dom_empty_L; set_unfold; tauto.
  - response_codes H.
  - response_codes H.
  - response_codes H.
  - response_codes H.
Qed.

Lemma gen_responses_status_codes_witness :
  (∃ resp, _gen_responses "GET" [] = Ok resp ∧
           dom resp = ({["200"; "400"; "500"]} : gset string)) ∧
  (∃ resp, _gen_responses "POST" [] = Ok resp ∧
           dom resp = ({["201"; "202"; "400"; "500"]} : gset string)) ∧
  (∃ resp, _gen_responses "PUT" [] = Ok resp ∧
           dom resp = ({["200"; "202"; "400"; "500"]} : gset string)) ∧
  (∃ resp, _gen_responses "DELETE" [] = Ok resp ∧
           dom resp = ({["202"; "204"; "400"; "500"]} : gset string)).
Proof.
  split; [|split; [|split]].
  - apply (proj1 (proj2 (gen_responses_status_codes "GET"))). reflexivity.
  - apply (proj1 (proj2 (proj2 (gen_responses_status_codes "POST")))).
    reflexivity.
  - apply (proj1 (proj2 (proj2 (proj2 (gen_responses_status_codes "PUT"))))).
    reflexivity.
  - apply (proj2 (proj2 (proj2 (proj2 (gen_responses_status_codes "DELETE"))))).
    reflexivity.
Defined.

(** ** Parameter objects *)

Lemma gen_params_missing_default (params : list param) (location : string)
    (prm : param) :
  prm ∈ params → p_required prm = false → p_default prm = None →
  _gen_params params location = Raise (KeyError "default").
Proof.
  intros Hin Hreq Hdef.
  induction params as [|q l IH]; [by apply elem_of_nil in Hin|].
  simpl. destruct (gen_param q location) as [res|e] eqn:E.
  - apply elem_of_cons in Hin as [->|Hin].
    + unfold gen_param in E. by rewrite Hreq, Hdef in E.
    + by rewrite IH.
  - unfold gen_param in E. destruct (p_required q); [done|].
    destruct (p_default q) as [[]|]; by inversion E.
Qed.

(** C9 (the code differs): for a parameter that is not required and has no
    ['default'] key, [_gen_params] does not produce an entry allowing an
    empty value; the lookup [param['default']] raises [KeyError].  Such a
    parameter reaches [_gen_params] from [_add_param_info], which copies
    ['default'] into a nested entry only when the key is present. *)
Theorem gen_params_absent_default_raises :
  _gen_params [mkParam "filter" false None None None None] "query"
    = Raise (KeyError "default") ∧
  _gen_params
    (_add_param_info [mkParam "pool" true None None None None]
       [mkOverride "filter" Tstr "Optional filter" false true None None])
    "query" = Raise (KeyError "default") ∧
  _gen_params [mkParam "filter" false (Some VNone) None None None] "query"
    = Ok [mkParameterObj "filter" "query" "string" None false true None].
Proof. repeat split. Qed.

(** ** Schema builder *)

Lemma gen_schema_loop_raises (params : list param) (prm : param) (e : exn) :
  prm ∈ params → gen_props prm = Raise e →
  ∀ required_params properties,
    ∃ e', gen_schema_loop params required_params properties = Raise e'.
Proof.
  intros Hin He. induction params as [|q l IH]; intros req props.
  - by apply elem_of_nil in Hin.
  - simpl. destruct (gen_props q) as [s|e'] eqn:E; [|eauto].
    apply elem_of_cons in Hin as [->|Hin]; [congruence|]. by apply IH.
Qed.

(** C10: a parameter with an explicit type that maps to "object" and
    without nested parameters always takes the array branch of the schema
    builder: when the marker can be indexed, its fragment has type "array"
    and items [{type: map(marker[0])}] (plus the description and default
    carried over); no such parameter yields a fragment of type "object";
    and when the marker cannot be indexed the error of [marker[0]] is the
    result, for the parameter and for every parameter list that holds it. *)
Theorem gen_props_object_marker (name : string) (required : bool)
    (dflt : option value) (t : marker) (description : option string) :
  let prm := mkParam name required dflt (Some t) description None in
  _type_to_str t = "object" →
  (∀ t0, marker_first t = Ok t0 →
     gen_props prm =
       Ok (mkSchema "array" None
             (Some (mkSchema (_type_to_str t0) None None None None None))
             None description dflt)) ∧
  (∀ props, gen_props prm = Ok props → s_type props = "array") ∧
  (∀ e, marker_first t = Raise e →
     gen_props prm = Raise e ∧
     ∀ params, prm ∈ params →
       ∃ e', _gen_schema_for_content (PlainParams params) = Raise e').
Proof.
  intros prm Ht.
  assert (Hprops : gen_props prm =
    rbind (marker_first t) (λ t0,
      Ok (mkSchema "array" None
            (Some (mkSchema (_type_to_str t0) None None None None None))
            None description dflt))).
  { unfold prm. simpl. rewrite Ht. simpl.
    destruct (marker_first t); simpl; [|done].
    by destruct description, dflt. }
  split; [|split].
  - intros t0 H0. by rewrite Hprops, H0.
  - intros props. rewrite Hprops. destruct (marker_first t); simpl; [|done].
    by intros [= <-].
  - intros e He. split; [by rewrite Hprops, He|].
    intros params Hin. unfold _gen_schema_for_content.
    destruct (gen_schema_loop_raises params prm e Hin) with
      (required_params := @nil string)
      (properties := @nil (string * schema)) as [e' ->].
    + by rewrite Hprops, He.
    + by exists e'.
Qed.

Lemma gen_props_object_marker_witness :
  gen_props (mkParam "ids" true None (Some (Mseq [Tint])) None None) =
    Ok (mkSchema "array" None
          (Some (mkSchema "integer" None None None None None))
          None None None) ∧
  gen_props (mkParam "opts" true None (Some (Tclass "dict")) None None) =
    Raise TypeError.
Proof.
  split.
  - apply (proj1 (gen_props_object_marker "ids" true None (Mseq [Tint]) None
                    eq_refl) Tint eq_refl).
  - apply (proj2 (proj2 (gen_props_object_marker "opts" true None
                           (Tclass "dict") None eq_refl)) TypeError eq_refl).
Defined.

(** ** Sorting *)

Lemma string_leb_trans (a b c : string) :
  String.leb a b = true → String.leb b c = true → String.leb a c = true.
Proof.
  unfold String.leb.
  destruct (String.compare a b) eqn:E1;
    [apply String.compare_eq_iff in E1; by subst | | done].
  destruct (String.compare b c) eqn:E2;
    [apply String.compare_eq_iff in E2; subst; by rewrite E1 | | done].
  intros _ _. apply String_as_OT.cmp_lt in E1, E2.
  pose proof (String_as_OT.lt_trans _ _ _ E1 E2) as H.
  apply String_as_OT.cmp_lt in H. unfold String_as_OT.cmp in H.
  by rewrite H.
Qed.

Section sorting.
Context {A K : Type} (leb : K → K → bool) (key : A → K).
Hypothesis leb_total : ∀ a b, leb a b = true ∨ leb b a = true.
Hypothesis leb_trans :
  ∀ a b c, leb a b = true → leb b c = true → leb a c = true.

Let le_key (x y : A) : Prop := leb (key x) (key y) = true.

Lemma insert_by_perm (x : A) (l : list A) :
  insert_by leb key x l ≡ₚ x :: l.
Proof.
  induction l as [|y l IH]; simpl; [done|].
  destruct (leb (key x) (key y)); [done|].
  rewrite IH. apply perm_swap.
Qed.

Lemma sorted_by_perm (l : list A) : sorted_by leb key l ≡ₚ l.
Proof.
  induction l as [|x l IH]; [done|].
  unfold sorted_by in *. simpl. by rewrite insert_by_perm, IH.
Qed.

Lemma insert_by_sorted (x : A) (l : list A) :
  StronglySorted le_key l → StronglySorted le_key (insert_by leb key x l).
Proof.
  induction 1 as [|y l Hl IH Hy]; simpl.
  - repeat constructor.
  - destruct (leb (key x) (key y)) eqn:E.
    + constructor; [by constructor|]. constructor; [done|].
      eapply Forall_impl; [exact Hy|]. intros z Hz. unfold le_key in *.
      by eapply leb_trans.
    + constructor; [done|].
      rewrite insert_by_perm. constructor; [|done]. unfold le_key.
      destruct (leb_total (key x) (key y)); congruence.
Qed.

Lemma sorted_by_sorted (l : list A) :
  StronglySorted le_key (sorted_by leb key l).
Proof.
  induction l as [|x l IH]; [constructor|].
  by apply insert_by_sorted.
Qed.
End sorting.

(** ** Insertion-ordered dictionaries *)

Lemma dict_get_set {V} (d : list (string * V)) (k k' : string) (v : V) :
  dict_get (dict_set d k v) k' =
  if String.eqb k' k then Some v else dict_get d k'.
Proof.
  induction d as [|[k0 v0] d IH]; simpl.
  - done.
  - destruct (String.eqb_spec k k0) as [->|Hk]; simpl.
    + by destruct (String.eqb k' k0).
    + rewrite IH. destruct (String.eqb_spec k' k0) as [->|Hk'];
        [|done].
      by destruct (String.eqb_spec k0 k) as [->|].
Qed.

Lemma dict_set_keys {V} (d : list (string * V)) (k : string) (v : V) :
  NoDup d.*1 → NoDup (dict_set d k v).*1 ∧
  ∀ k', k' ∈ (dict_set d k v).*1 ↔ k' = k ∨ k' ∈ d.*1.
Proof.
  induction d as [|[k0 v0] d IH]; simpl; intros Hnd.
  - split; [repeat constructor; set_solver | set_solver].
  - apply NoDup_cons in Hnd as [Hk0 Hnd]. destruct (IH Hnd) as [IH1 IH2].
    destruct (String.eqb_spec k k0) as [->|Hk]; simpl.
    + split; [by constructor | set_solver].
    + split.
      * constructor; [|done]. rewrite IH2. intros [?|?]; [congruence|done].
      * intros k'. rewrite !elem_of_cons, IH2. tauto.
Qed.

Lemma dict_get_elem_of {V} (d : list (string * V)) (k : string) (v : V) :
  NoDup d.*1 → (k, v) ∈ d ↔ dict_get d k = Some v.
Proof.
  induction d as [|[k0 v0] d IH]; simpl; intros Hnd.
  - split; [intros H; by apply elem_of_nil in H | done].
  - apply NoDup_cons in Hnd as [Hk0 Hnd]. rewrite elem_of_cons, (IH Hnd).
    destruct (String.eqb_spec k k0) as [->|Hk].
    + split.
      * intros [[= ->]|H]; [done|]. exfalso. apply Hk0.
        apply IH in H; [|done]. apply list_elem_of_fmap. by exists (k0, v).
      * intros [= ->]. by left.
    + split; [intros [[= -> _]|H]; done | by right].
Qed.

(** ** Tag assembler *)

Lemma nonempty_true (s : string) : nonempty s = true ↔ s ≠ "".
Proof. by destruct s. Qed.

Lemma tag_map_step_get (m : list (string * string)) (c : controller)
    (k : string) :
  dict_get (tag_map_step m c) k =
  if String.eqb k (ctrl_tag c).1 then
    match dict_get m k with
    | Some v => if nonempty v then Some v else Some (ctrl_tag c).2
    | None => Some (ctrl_tag c).2
    end
  else dict_get m k.
Proof.
  unfold tag_map_step. destruct (ctrl_tag c) as [tn td]. simpl.
  destruct (String.eqb_spec k tn) as [->|Hk].
  - destruct (dict_get m tn) as [v|] eqn:E.
    + destruct (nonempty v); [done|].
      by rewrite dict_get_set, String.eqb_refl.
    + by rewrite dict_get_set, String.eqb_refl.
  - destruct (dict_get m tn) as [v|]; [destruct (nonempty v); [done|]|];
      rewrite dict_get_set; by destruct (String.eqb_spec k tn).
Qed.

Lemma tag_map_step_nodup (m : list (string * string)) (c : controller) :
  NoDup m.*1 → NoDup (tag_map_step m c).*1.
Proof.
  intros H. unfold tag_map_step. destruct (ctrl_tag c) as [tn td].
  destruct (dict_get m tn) as [v|]; [destruct (nonempty v); [done|]|];
    by apply dict_set_keys.
Qed.

Lemma tag_map_nodup (l : list controller) (m : list (string * string)) :
  NoDup m.*1 → NoDup (foldl tag_map_step m l).*1.
Proof.
  revert m. induction l as [|c l IH]; intros m H; [done|].
  simpl. by apply IH, tag_map_step_nodup.
Qed.

(** A description that is not empty is never replaced. *)
Lemma tag_map_keeps_nonempty (l : list controller)
    (m : list (string * string)) (t d : string) :
  d ≠ "" → dict_get m t = Some d →
  dict_get (foldl tag_map_step m l) t = Some d.
Proof.
  intros Hd. revert m. induction l as [|c l IH]; intros m H; [done|].
  simpl. apply IH. rewrite tag_map_step_get, H.
  apply nonempty_true in Hd. rewrite Hd. by destruct (String.eqb _ _).
Qed.

Lemma tag_map_resolves (l : list controller) (m : list (string * string))
    (t d : string) :
  d ≠ "" →
  (∀ c, c ∈ l → (ctrl_tag c).1 = t →
        (ctrl_tag c).2 = "" ∨ (ctrl_tag c).2 = d) →
  dict_get m t = None ∨ dict_get m t = Some "" →
  (∃ c, c ∈ l ∧ ctrl_tag c = (t, d)) →
  dict_get (foldl tag_map_step m l) t = Some d.
Proof.
  intros Hd. revert m. induction l as [|c0 l IH]; intros m Hall Hm [c [Hc Hcd]].
  - by apply elem_of_nil in Hc.
  - simpl.
    assert (Hall' : ∀ c, c ∈ l → (ctrl_tag c).1 = t →
                         (ctrl_tag c).2 = "" ∨ (ctrl_tag c).2 = d)
      by (intros c' Hc'; apply Hall; by right).
    pose proof (tag_map_step_get m c0 t) as Hstep.
    destruct (String.eqb_spec t (ctrl_tag c0).1) as [Ht|Ht].
    + destruct (Hall c0) as [He|He]; [by left | done | |].
      * apply IH; [done| |].
        -- right. rewrite Hstep, He. by destruct Hm as [-> | ->].
        -- apply elem_of_cons in Hc as [->|Hc]; [|by exists c].
           rewrite Hcd in He. simpl in He. congruence.
      * apply tag_map_keeps_nonempty; [done|].
        rewrite Hstep, He. by destruct Hm as [-> | ->].
    + apply IH; [done| |].
      * by rewrite Hstep.
      * apply elem_of_cons in Hc as [->|Hc]; [|by exists c].
        rewrite Hcd in Ht. simpl in Ht. congruence.
Qed.

Lemma gen_tags_elem_of (order : list controller) (tg : tag) :
  tg ∈ _gen_tags order ↔
  ∃ v, dict_get (foldl tag_map_step [] order) (t_name tg) = Some v ∧
       t_description tg = if nonempty v then v else NO_DESCRIPTION_AVAILABLE.
Proof.
  unfold _gen_tags. rewrite sorted_by_perm, list_elem_of_fmap.
  pose proof (tag_map_nodup order [] (NoDup_nil_2 : NoDup ([] : list (string * string)).*1)) as Hnd.
  split.
  - intros [[k v] [-> H]]. exists v. simpl. split; [|done].
    by apply dict_get_elem_of.
  - intros [v [H1 H2]]. exists (t_name tg, v). split.
    + destruct tg. simpl in *. by rewrite H2.
    + by apply dict_get_elem_of.
Qed.

Lemma gen_tags_names_nodup (order : list controller) :
  NoDup (map t_name (_gen_tags order)).
Proof.
  unfold _gen_tags. rewrite sorted_by_perm, <- list_fmap_compose.
  pose proof (tag_map_nodup order [] (NoDup_nil_2 : NoDup ([] : list (string * string)).*1)) as Hnd.
  erewrite list_fmap_ext; [exact Hnd|]. by intros i [k v] _.
Qed.

(** C7: the description of a tag does not depend on the order in which
    the controllers are processed when the choice is between empty and
    non-empty descriptions: two controllers claiming the same tag, one with
    an empty and one with a non-empty description, give that tag the
    non-empty description in either order; more generally, for every
    iteration order of the controller set, a tag whose claimants all have
    either the empty description or the description [d] (and one has [d])
    appears exactly once, with description [d]; and the list returned is
    sorted by name, ascending and without repeated names. *)
Theorem gen_tags_order_independent (all_endpoints : bool)
    (ENDPOINT_MAP : gmap string (list endpoint)) (order : list controller) :
  iteration_of all_endpoints ENDPOINT_MAP order →
  StronglySorted (λ x y, String.leb (t_name x) (t_name y) = true)
    (_gen_tags order) ∧
  NoDup (map t_name (_gen_tags order)) ∧
  (∀ t d, d ≠ "" →
     (∃ c, c ∈ selected_ctrls all_endpoints ENDPOINT_MAP ∧
           ctrl_tag c = (t, d)) →
     (∀ c, c ∈ selected_ctrls all_endpoints ENDPOINT_MAP →
           (ctrl_tag c).1 = t → (ctrl_tag c).2 = "" ∨ (ctrl_tag c).2 = d) →
     mkTag t d ∈ _gen_tags order ∧
     ∀ tg, tg ∈ _gen_tags order → t_name tg = t → tg = mkTag t d) ∧
  (∀ a b t d, d ≠ "" → ctrl_tag a = (t, "") → ctrl_tag b = (t, d) →
     _gen_tags [a; b] = [mkTag t d] ∧ _gen_tags [b; a] = [mkTag t d]).
Proof.
  intros Hiter. split; [|split; [|split]].
  - apply sorted_by_sorted.
    + apply String.leb_total.
    + apply string_leb_trans.
  - apply gen_tags_names_nodup.
  - intros t d Hd [c [Hc Hcd]] Hall.
    assert (Hget : dict_get (foldl tag_map_step [] order) t = Some d).
    { apply tag_map_resolves; [done| |by left|].
      - intros c' Hc'. apply Hall. by apply Hiter.
      - exists c. split; [by apply Hiter | done]. }
    split.
    + apply gen_tags_elem_of. exists d. split; [done|]. simpl.
      apply nonempty_true in Hd. by rewrite Hd.
    + intros [n ds] [v [Hv Hds]]%gen_tags_elem_of Hn. simpl in *. subst n.
      rewrite Hget in Hv. injection Hv as <-.
      apply nonempty_true in Hd. rewrite Hd in Hds. by subst.
  - intros a b t d Hd Ha Hb. apply nonempty_true in Hd.
    unfold _gen_tags, tag_map_step. simpl. rewrite Ha, Hb. simpl.
    rewrite !String.eqb_refl. simpl. rewrite ?Hd, ?String.eqb_refl.
    split; [done|]. unfold sorted_by. simpl. by rewrite Hd.
Qed.

Lemma gen_tags_order_independent_witness :
  let a := mkController "Auth" (Some (mkCtrlDocInfo "auth" "")) in
  let b := mkController "AuthExtra" (Some (mkCtrlDocInfo "auth" "desc")) in
  let h := mkHandler None None false in
  let reg : gmap string (list endpoint) :=
    {["/auth" := [mkEndpoint "GET" a h false [] [] [];
                  mkEndpoint "POST" b h false [] [] []]]} in
  mkTag "auth" "desc" ∈ _gen_tags [a; b] ∧
  mkTag "auth" "desc" ∈ _gen_tags [b; a].
Proof.
  intros a b h reg.
  assert (Hsel : selected_ctrls false reg = [a; b])
    by (vm_compute; reflexivity).
  assert (Hab : iteration_of false reg [a; b]).
  { intros c. rewrite Hsel. tauto. }
  assert (Hba : iteration_of false reg [b; a]).
  { intros c. rewrite Hsel, !elem_of_cons. tauto. }
  assert (Hd : "desc" ≠ "") by discriminate.
  assert (Hone : ∃ c, c ∈ selected_ctrls false reg ∧
                      ctrl_tag c = ("auth", "desc")).
  { exists b. rewrite Hsel. split; [right; left | reflexivity]. }
  assert (Hall : ∀ c, c ∈ selected_ctrls false reg →
                      (ctrl_tag c).1 = "auth" →
                      (ctrl_tag c).2 = "" ∨ (ctrl_tag c).2 = "desc").
  { intros c. rewrite Hsel, !elem_of_cons.
    intros [->|[->|H]] _;
      [left; reflexivity | right; reflexivity |
       destruct (proj1 (elem_of_nil _) H)]. }
  split.
  - exact (proj1 (proj1 (proj2 (proj2
             (gen_tags_order_independent false reg [a; b] Hab)))
             "auth" "desc" Hd Hone Hall)).
  - exact (proj1 (proj1 (proj2 (proj2
             (gen_tags_order_independent false reg [b; a] Hba)))
             "auth" "desc" Hd Hone Hall)).
Defined.

(** ** Path assembler: one endpoint *)

Lemma is_empty_false {A} (l : list A) : l ≠ [] → is_empty l = false.
Proof. by destruct l. Qed.

Ltac unfold_operation :=
  cbv [gen_operation m_bind m_gets m_ret m_lift merge_params
       set_requestBody].

Ltac simpl_operation :=
  cbn [method ctrl func is_backend_api path_params query_params body_params
       fst snd].

Ltac case_operation :=
  match goal with
  | |- context [match ?x with _ => _ end] =>
      lazymatch x with
      | context [match _ with _ => _ end] => fail
      | _ => destruct x eqn:?
      end
  end.

Ltac run_operation :=
  unfold_operation; simpl_operation; repeat (case_operation; simpl_operation).

Lemma gen_operation_state (e : endpoint) : (gen_operation e).1 = e.
Proof. destruct e as [m c f b pp qp bp]. run_operation; reflexivity. Qed.

(** The request body of a POST or PUT operation with body and query
    parameters. *)
Lemma gen_operation_request_body (e e' : endpoint) (op : operation) :
  gen_operation e = (e', Ok op) →
  lower (method e) ∈ ["post"; "put"] →
  body_params e ≠ [] → query_params e ≠ [] →
  ∃ from_body s,
    _gen_schema_for_content
      (PlainParams
         (if h_body_params_schema (func e)
          then map override_as_param (p_info_of e)
          else _add_param_info (body_params e) (p_info_of e)))
      = Ok from_body ∧
    _gen_schema_for_content
      (PlainParams (_add_param_info (query_params e) (p_info_of e))) = Ok s ∧
    op_requestBody op = Some s.
Proof.
  destruct e as [m c f b pp qp bp]. unfold p_info_of. simpl.
  intros H Hm Hb Hq. revert H.
  unfold_operation. simpl_operation.
  repeat (first
    [ rewrite (is_empty_false qp Hq)
    | rewrite (is_empty_false bp Hb)
    | rewrite (bool_decide_eq_true_2 _ Hm)
    | case_operation ]; simpl_operation);
  intros [= <- <-]; cbn; eauto.
Qed.

(** ** Path assembler: the endpoints of one path *)

Lemma result_map_ok {A B} (f : A → result B) (l : list A) (ys : list B) :
  result_map f l = Ok ys → Forall2 (λ x y, f x = Ok y) l ys.
Proof.
  revert ys. induction l as [|x l IH]; simpl; intros ys.
  - intros [= <-]. constructor.
  - destruct (f x) as [y|] eqn:E; simpl; [|done].
    destruct (result_map f l) as [ys'|]; simpl; [|done].
    intros [= <-]. constructor; [done | by apply IH].
Qed.

Lemma endpoint_list_perm (endpoints : list endpoint)
    (el : list (nat * endpoint)) :
  endpoint_list endpoints = Ok el → el ≡ₚ imap pair endpoints.
Proof.
  unfold endpoint_list.
  destruct (result_map _ (imap pair endpoints)) as [keyed|] eqn:E;
    simpl; [|done].
  intros [= <-]. rewrite sorted_by_perm.
  apply result_map_ok in E.
  assert (Hsnd : map snd keyed = imap pair endpoints); [|by rewrite Hsnd].
  induction E as [|ie y l ys Hy _ IH]; [done|]. simpl. rewrite IH. f_equal.
  destruct (list_index _ _); simpl in Hy; [|done]. by injection Hy as <-.
Qed.

Lemma endpoint_list_elem_of (endpoints : list endpoint)
    (el : list (nat * endpoint)) :
  endpoint_list endpoints = Ok el →
  ∀ i e, (i, e) ∈ el ↔ endpoints !! i = Some e.
Proof.
  intros H i e. rewrite (endpoint_list_perm _ _ H), elem_of_lookup_imap.
  split.
  - by intros (j & x & [= -> ->] & Hx).
  - intros Hx. by exists i, e.
Qed.

Lemma gen_methods_ok (all_endpoints : bool) (el : list (nat * endpoint)) :
  ∀ (methods : gmap string operation) (es es' : list endpoint) (skip : bool)
    (ms : gmap string operation),
  gen_methods all_endpoints el methods es = (es', Ok (skip, ms)) →
  (skip = true →
   all_endpoints = false ∧ ∃ i e, (i, e) ∈ el ∧ is_backend_api e = true) ∧
  (skip = false →
   (∀ i e, (i, e) ∈ el → is_backend_api e = false ∨ all_endpoints = true) ∧
   (∀ i e, (i, e) ∈ el → is_Some (ms !! lower (method e))) ∧
   (∀ m, is_Some (methods !! m) → is_Some (ms !! m)) ∧
   (∀ m op, ms !! m = Some op →
      methods !! m = Some op ∨
      ∃ i e e', (i, e) ∈ el ∧ lower (method e) = m ∧
                gen_operation e = (e', Ok op))).
Proof.
  induction el as [|[i e] rest IH]; intros methods es es' skip ms; simpl.
  - unfold m_ret. intros [= <- <- <-]. split; [done|]. intros _.
    repeat split; try done.
    + intros ? ? H. by apply elem_of_nil in H.
    + intros ? ? H. by apply elem_of_nil in H.
    + by left.
  - destruct (is_backend_api e && negb all_endpoints) eqn:Hb.
    + unfold m_ret. intros [= <- <- <-]. split; [|done]. intros _.
      apply andb_true_iff in Hb as [Hb Ha]. apply negb_true_iff in Ha.
      split; [done|]. exists i, e. split; [by left | done].
    + unfold m_bind, at_index.
      destruct (gen_operation e) as [e' [op|err]] eqn:Hop; [|done].
      intros H. apply IH in H as [H1 H2]. split.
      * intros Hs. destruct (H1 Hs) as (Ha & j & x & Hx & Hxb).
        split; [done|]. exists j, x. split; [by right | done].
      * intros Hs. destruct (H2 Hs) as (Hback & Hsome & Hmono & Hfrom).
        repeat split.
        -- intros j x [[= -> ->]|Hx]%elem_of_cons; [|by eapply Hback].
           apply andb_false_iff in Hb as [Hb|Hb]; [by left|].
           right. by apply negb_false_iff in Hb.
        -- intros j x [[= -> ->]|Hx]%elem_of_cons; [|by eapply Hsome].
           apply Hmono. rewrite lookup_insert_eq. by eexists.
        -- intros m [op' Hm]. apply Hmono.
           destruct (decide (lower (method e) = m)) as [<-|Hne].
           ++ rewrite lookup_insert_eq. by eexists.
           ++ rewrite lookup_insert_ne by done. by eexists.
        -- intros m op' Hm. destruct (Hfrom m op' Hm) as [Hin|Hin].
           ++ destruct (decide (lower (method e) = m)) as [<-|Hne].
              ** rewrite lookup_insert_eq in Hin. injection Hin as <-.
                 right. exists i, e, e'. split; [by left | done].
              ** rewrite lookup_insert_ne in Hin by done. by left.
           ++ destruct Hin as (j & x & x' & Hx & Hxm & Hxop).
              right. exists j, x, x'. split; [by right | done].
Qed.

Lemma gen_methods_state (all_endpoints : bool) (el : list (nat * endpoint)) :
  ∀ (methods : gmap string operation) (es : list endpoint),
  (∀ i e, (i, e) ∈ el → es !! i = Some e) →
  (gen_methods all_endpoints el methods es).1 = es.
Proof.
  induction el as [|[i e] rest IH]; intros methods es H; simpl; [done|].
  destruct (is_backend_api e && negb all_endpoints); [done|].
  unfold m_bind, at_index.
  assert (Hi : es !! i = Some e) by (apply H; by left).
  pose proof (gen_operation_state e) as Hop.
  destruct (gen_operation e) as [e' [op|err]]; simpl in Hop; subst e';
    rewrite (list_insert_id _ _ _ Hi); [|done].
  apply IH. intros j x Hx. apply H. by right.
Qed.

Lemma gen_path_ok (all_endpoints : bool) (endpoints endpoints' : list endpoint)
    (skip : bool) (ms : gmap string operation) :
  gen_path all_endpoints endpoints = (endpoints', Ok (skip, ms)) →
  (skip = true →
   all_endpoints = false ∧ ∃ e, e ∈ endpoints ∧ is_backend_api e = true) ∧
  (skip = false →
   (∀ e, e ∈ endpoints → is_backend_api e = false ∨ all_endpoints = true) ∧
   (∀ e, e ∈ endpoints → is_Some (ms !! lower (method e))) ∧
   (∀ m op, ms !! m = Some op →
      ∃ e e', e ∈ endpoints ∧ lower (method e) = m ∧
              gen_operation e = (e', Ok op))).
Proof.
  unfold gen_path, m_bind, m_gets, m_lift, id.
  destruct (endpoint_list endpoints) as [el|] eqn:Hel; [|done].
  intros H. apply gen_methods_ok in H as [H1 H2].
  pose proof (endpoint_list_elem_of _ _ Hel) as Hin.
  split.
  - intros Hs. destruct (H1 Hs) as (Ha & i & e & He & Hb). split; [done|].
    exists e. split; [|done]. apply Hin in He. by eapply list_elem_of_lookup_2.
  - intros Hs. destruct (H2 Hs) as (Hback & Hsome & _ & Hfrom).
    repeat split.
    + intros e [i Hi]%list_elem_of_lookup_1. apply (Hback i). by apply Hin.
    + intros e [i Hi]%list_elem_of_lookup_1. apply (Hsome i). by apply Hin.
    + intros m op Hm. destruct (Hfrom m op Hm) as [Hempty|Hex].
      * by rewrite lookup_empty in Hempty.
      * destruct Hex as (i & e & e' & He & Hem & Hop). exists e, e'.
        split; [|done]. apply Hin in He. by eapply list_elem_of_lookup_2.
Qed.

Lemma gen_path_state (all_endpoints : bool) (endpoints : list endpoint) :
  (gen_path all_endpoints endpoints).1 = endpoints.
Proof.
  unfold gen_path, m_bind, m_gets, m_lift, id.
  destruct (endpoint_list endpoints) as [el|] eqn:Hel; [|done].
  apply gen_methods_state. intros i e Hie.
  by apply (endpoint_list_elem_of _ _ Hel) in Hie.
Qed.

(** ** Path assembler: the registry *)

Lemma gen_paths_loop_ok (all_endpoints : bool)
    (items : list (string * list endpoint)) :
  ∀ (paths : gmap string (gmap string operation))
    (reg reg' : gmap string (list endpoint))
    (paths' : gmap string (gmap string operation)),
  gen_paths_loop all_endpoints items paths reg = (reg', Ok paths') →
  NoDup items.*1 →
  (∀ p, p ∉ items.*1 → paths' !! p = paths !! p) ∧
  (∀ path endpoints, (path, endpoints) ∈ items →
     ∃ endpoints' skip ms,
       gen_path all_endpoints endpoints = (endpoints', Ok (skip, ms)) ∧
       paths' !! path = if skip : bool then paths !! path else Some ms).
Proof.
  induction items as [|[path endpoints] rest IH];
    intros paths reg reg' paths'; simpl.
  - unfold m_ret. intros [= <- <-] _. split; [done|].
    intros ? ? H. by apply elem_of_nil in H.
  - unfold m_bind, at_path.
    destruct (gen_path all_endpoints endpoints)
      as [endpoints' [[skip ms]|err]] eqn:Hp; [|done].
    intros H [Hpath Hnd]%NoDup_cons.
    destruct (IH _ _ _ _ H Hnd) as [Hout Hin].
    assert (Hhead : paths' !! path =
                    if skip then paths !! path else Some ms).
    { rewrite (Hout path Hpath). destruct skip; [done|].
      by rewrite lookup_insert_eq. }
    split.
    + intros p [Hne Hp']%not_elem_of_cons. rewrite (Hout p Hp').
      destruct skip; [done|]. by rewrite lookup_insert_ne.
    + intros path' endpoints0 [[= -> ->]|Hx]%elem_of_cons.
      * by exists endpoints', skip, ms.
      * destruct (Hin _ _ Hx) as (e1 & skip1 & ms1 & Hg & Hl).
        exists e1, skip1, ms1. split; [done|]. rewrite Hl.
        destruct skip1; [|done]. destruct skip; [done|].
        apply lookup_insert_ne. intros ->. apply Hpath.
        apply list_elem_of_fmap. by exists (path', endpoints0).
Qed.

Lemma gen_paths_loop_state (all_endpoints : bool)
    (items : list (string * list endpoint)) :
  ∀ (paths : gmap string (gmap string operation))
    (reg : gmap string (list endpoint)),
  (∀ path endpoints, (path, endpoints) ∈ items →
     reg !! path = Some endpoints) →
  (gen_paths_loop all_endpoints items paths reg).1 = reg.
Proof.
  induction items as [|[path endpoints] rest IH]; intros paths reg H; simpl;
    [done|].
  unfold m_bind, at_path.
  assert (Hreg : reg !! path = Some endpoints) by (apply H; by left).
  pose proof (gen_path_state all_endpoints endpoints) as Hp.
  destruct (gen_path all_endpoints endpoints) as [endpoints' [[skip ms]|err]];
    simpl in Hp; subst endpoints'; rewrite (insert_id _ _ _ Hreg); [|done].
  apply IH. intros p es Hp. apply H. by right.
Qed.

Lemma sorted_items (ENDPOINT_MAP : gmap string (list endpoint)) :
  let items := sorted_by String.leb fst (map_to_list ENDPOINT_MAP) in
  NoDup items.*1 ∧
  ∀ path endpoints,
    (path, endpoints) ∈ items ↔ ENDPOINT_MAP !! path = Some endpoints.
Proof.
  simpl. split.
  - rewrite sorted_by_perm. apply NoDup_fst_map_to_list.
  - intros path endpoints. rewrite sorted_by_perm.
    apply elem_of_map_to_list.
Qed.

Lemma gen_paths_ok (all_endpoints : bool)
    (ENDPOINT_MAP reg' : gmap string (list endpoint))
    (paths : gmap string (gmap string operation)) :
  _gen_paths all_endpoints ENDPOINT_MAP = (reg', Ok paths) →
  (∀ path, ENDPOINT_MAP !! path = None → paths !! path = None) ∧
  (∀ path endpoints, ENDPOINT_MAP !! path = Some endpoints →
     ∃ endpoints' skip ms,
       gen_path all_endpoints endpoints = (endpoints', Ok (skip, ms)) ∧
       paths !! path = if skip : bool then None else Some ms).
Proof.
  unfold _gen_paths, m_bind, m_gets. intros H.
  destruct (sorted_items ENDPOINT_MAP) as [Hnd Hin].
  destruct (gen_paths_loop_ok _ _ _ _ _ _ H Hnd) as [Hout Hitems].
  split.
  - intros path Hnone. rewrite Hout; [by rewrite lookup_empty|].
    intros [[p es] [-> Hp]]%list_elem_of_fmap. apply Hin in Hp.
    simpl in Hnone. congruence.
  - intros path endpoints Hp. apply Hin in Hp.
    destruct (Hitems _ _ Hp) as (e1 & skip & ms & Hg & Hl).
    exists e1, skip, ms. split; [done|]. rewrite Hl.
    by rewrite lookup_empty.
Qed.

Lemma gen_paths_state (all_endpoints : bool)
    (ENDPOINT_MAP : gmap string (list endpoint)) :
  (_gen_paths all_endpoints ENDPOINT_MAP).1 = ENDPOINT_MAP.
Proof.
  unfold _gen_paths, m_bind, m_gets.
  apply gen_paths_loop_state. intros path endpoints Hp.
  by apply (proj2 (sorted_items ENDPOINT_MAP)) in Hp.
Qed.

(** C3: when the generation returns a document, a path with an
    internal-only endpoint is absent from it if the include-internal flag is
    not set, whatever its other endpoints are; with the flag set (or when
    no endpoint of the path is internal-only) the path is present and its
    methods are exactly the lower-cased methods of its endpoints. *)
Theorem gen_paths_internal_filter (all_endpoints : bool)
    (ENDPOINT_MAP reg' : gmap string (list endpoint))
    (paths : gmap string (gmap string operation)) (path : string)
    (endpoints : list endpoint) :
  _gen_paths all_endpoints ENDPOINT_MAP = (reg', Ok paths) →
  ENDPOINT_MAP !! path = Some endpoints →
  (all_endpoints = false →
   (∃ e, e ∈ endpoints ∧ is_backend_api e = true) →
   paths !! path = None) ∧
  (all_endpoints = true ∨ (∀ e, e ∈ endpoints → is_backend_api e = false) →
   ∃ methods, paths !! path = Some methods ∧
     (∀ e, e ∈ endpoints → is_Some (methods !! lower (method e))) ∧
     (∀ m, is_Some (methods !! m) →
           ∃ e, e ∈ endpoints ∧ lower (method e) = m)).
Proof.
  intros H Hp. apply gen_paths_ok in H as [_ H].
  destruct (H _ _ Hp) as (es' & skip & ms & Hg & Hl).
  apply gen_path_ok in Hg as [Hskip Hkeep]. split.
  - intros Hall (e & He & Hb). rewrite Hl. destruct skip; [done|].
    destruct Hkeep as (Hback & _); [done|].
    destruct (Hback e He); congruence.
  - intros Hcond. destruct skip.
    + destruct Hskip as (Hall & e & He & Hb); [done|].
      destruct Hcond as [?|Hno]; [congruence|]. rewrite (Hno e He) in Hb.
      discriminate.
    + destruct Hkeep as (_ & Hsome & Hfrom); [done|].
      exists ms. split; [done|]. split; [done|].
      intros m [op Hm]. destruct (Hfrom m op Hm) as (e & e' & He & Hem & _).
      by exists e.
Qed.

Lemma is_ok_true {A} (r : result A) : is_ok r = true → ∃ a, r = Ok a.
Proof. destruct r; [by eexists | done]. Qed.

Lemma parameter_count_some
    (doc : result (gmap string (gmap string operation)))
    (path method : string) (n : nat) :
  parameter_count doc path method = Some n →
  ∃ paths methods op,
    doc = Ok paths ∧ paths !! path = Some methods ∧
    methods !! method = Some op ∧ length (op_parameters op) = n.
Proof.
  unfold parameter_count. destruct doc as [paths|]; [|done].
  destruct (paths !! path) as [methods|] eqn:Hp; [|done].
  destruct (methods !! method) as [op|] eqn:Hm; simpl; [|done].
  intros [= <-]. by exists paths, methods, op.
Qed.

Lemma gen_paths_internal_filter_witness :
  (∃ paths, (_gen_paths false volumes_registry).2 = Ok paths ∧
            paths !! "/volumes" = None) ∧
  (∃ paths methods, (_gen_paths true volumes_registry).2 = Ok paths ∧
            paths !! "/volumes" = Some methods ∧
            is_Some (methods !! "delete") ∧ is_Some (methods !! "post")).
Proof.
  assert (Hreg : ∃ es, volumes_registry !! "/volumes" = Some es ∧
            ∃ e1 e2, es = [e1; e2] ∧ is_backend_api e1 = true ∧
                     lower (method e1) = "delete" ∧
                     lower (method e2) = "post").
  { eexists. split; [apply lookup_singleton_eq|].
    eexists _, _. repeat split. }
  destruct Hreg as (es & Hes & e1 & e2 & -> & Hb & Hm1 & Hm2).
  split.
  - destruct (is_ok_true (_gen_paths false volumes_registry).2)
      as [paths Hok]; [vm_compute; reflexivity|].
    exists paths. split; [exact Hok|].
    refine (proj1 (gen_paths_internal_filter false volumes_registry
                     (_gen_paths false volumes_registry).1 paths "/volumes"
                     [e1; e2] _ Hes) eq_refl _).
    + rewrite <- Hok. apply surjective_pairing.
    + exists e1. split; [left | exact Hb].
  - destruct (is_ok_true (_gen_paths true volumes_registry).2)
      as [paths Hok]; [vm_compute; reflexivity|].
    destruct (proj2 (gen_paths_internal_filter true volumes_registry
                       (_gen_paths true volumes_registry).1 paths "/volumes"
                       [e1; e2]
                       (eq_trans (surjective_pairing _)
                          (f_equal (pair _) Hok)) Hes) (or_introl eq_refl))
      as (methods & Hpaths & Hall & _).
    exists paths, methods. split; [exact Hok|]. split; [exact Hpaths|].
    split.
    + rewrite <- Hm1. apply Hall. left.
    + rewrite <- Hm2. apply Hall. right; left.
Defined.

(** C2: in a generated document, the operation of a POST or PUT endpoint
    that has both body parameters and query parameters (and is the only
    endpoint of its path with that method) has one request body.  The
    schema of the body parameters is built first, and the request body of
    the operation is the one built last: the schema of the query parameters
    merged with the explicit descriptions. *)
Theorem gen_paths_request_body (all_endpoints : bool)
    (ENDPOINT_MAP reg' : gmap string (list endpoint))
    (paths : gmap string (gmap string operation)) (path : string)
    (endpoints : list endpoint) (methods : gmap string operation)
    (e : endpoint) :
  _gen_paths all_endpoints ENDPOINT_MAP = (reg', Ok paths) →
  ENDPOINT_MAP !! path = Some endpoints →
  paths !! path = Some methods →
  e ∈ endpoints →
  (∀ e0, e0 ∈ endpoints → lower (method e0) = lower (method e) → e0 = e) →
  lower (method e) ∈ ["post"; "put"] →
  body_params e ≠ [] → query_params e ≠ [] →
  ∃ op from_body s,
    methods !! lower (method e) = Some op ∧
    _gen_schema_for_content
      (PlainParams
         (if h_body_params_schema (func e)
          then map override_as_param (p_info_of e)
          else _add_param_info (body_params e) (p_info_of e)))
      = Ok from_body ∧
    _gen_schema_for_content
      (PlainParams (_add_param_info (query_params e) (p_info_of e))) = Ok s ∧
    op_requestBody op = Some s.
Proof.
  intros H Hp Hms He Huniq Hm Hb Hq.
  apply gen_paths_ok in H as [_ H].
  destruct (H _ _ Hp) as (es' & skip & ms & Hg & Hl).
  rewrite Hms in Hl. destruct skip; [done|]. injection Hl as ->.
  apply gen_path_ok in Hg as [_ Hkeep].
  destruct Hkeep as (_ & Hsome & Hfrom); [done|].
  destruct (Hsome e He) as [op Hop]. exists op.
  destruct (Hfrom _ _ Hop) as (e0 & e0' & He0 & Hm0 & Hgen).
  apply Huniq in Hm0; [|done]. subst e0.
  destruct (gen_operation_request_body _ _ _ Hgen Hm Hb Hq)
    as (sb & s & Hsb & Hs & Hrb).
  by exists sb, s.
Qed.

Lemma gen_paths_request_body_witness :
  ∃ paths methods op from_body s,
    (_gen_paths false images_registry).2 = Ok paths ∧
    paths !! "/images" = Some methods ∧
    methods !! "put" = Some op ∧
    op_requestBody op = Some s ∧
    s_required s = Some ["detail"] ∧
    s_required from_body = Some ["size"; "detail"].
Proof.
  destruct (parameter_count_some (_gen_paths false images_registry).2
              "/images" "put" 2)
    as (paths & methods & op0 & Hok & Hms & _); [vm_compute; reflexivity|].
  assert (Hreg : ∃ e, images_registry !! "/images" = Some [e] ∧
            lower (method e) = "put" ∧
            body_params e ≠ [] ∧ query_params e ≠ [] ∧
            (∃ sb, _gen_schema_for_content
                     (PlainParams
                        (if h_body_params_schema (func e)
                         then map override_as_param (p_info_of e)
                         else _add_param_info (body_params e) (p_info_of e)))
                   = Ok sb ∧ s_required sb = Some ["size"; "detail"]) ∧
            (∃ sq, _gen_schema_for_content
                     (PlainParams
                        (_add_param_info (query_params e) (p_info_of e)))
                   = Ok sq ∧ s_required sq = Some ["detail"])).
  { eexists. split; [apply lookup_singleton_eq|].
    split; [reflexivity|]. split; [discriminate|]. split; [discriminate|].
    split; eexists; split; reflexivity. }
  destruct Hreg as (e & Hes & Hm & Hb & Hq & (sb & Hsb & Hrb) &
                    (sq & Hsq & Hrq)).
  destruct (gen_paths_request_body false images_registry
              (_gen_paths false images_registry).1 paths "/images"
              [e] methods e
              (eq_trans (surjective_pairing _) (f_equal (pair _) Hok))
              Hes Hms) as (op & from_body & s & Hop & Hfb & Hs & Hreq).
  - left.
  - intros e0 [->|H]%elem_of_cons; [reflexivity|].
    destruct (proj1 (elem_of_nil _) H).
  - rewrite Hm. right; left.
  - exact Hb.
  - exact Hq.
  - rewrite Hm in Hop. exists paths, methods, op, from_body, s.
    repeat (split; [assumption|]).
    rewrite Hsq in Hs. injection Hs as <-.
    rewrite Hsb in Hfb. injection Hfb as <-.
    split; assumption.
Defined.

(** C1: generating a document leaves the endpoint registry as it was, with
    every descriptor and its three parameter lists; a second call on the
    registry that the first one left returns what the first returned, and
    [_gen_spec] does not change the registry either. *)
Theorem gen_paths_registry_unchanged (all_endpoints : bool)
    (ENDPOINT_MAP : gmap string (list endpoint)) :
  (_gen_paths all_endpoints ENDPOINT_MAP).1 = ENDPOINT_MAP ∧
  _gen_paths all_endpoints (_gen_paths all_endpoints ENDPOINT_MAP).1 =
    _gen_paths all_endpoints ENDPOINT_MAP ∧
  (∀ base_url offline request_base list_of_ctrl,
     (_gen_spec all_endpoints base_url offline request_base list_of_ctrl
        ENDPOINT_MAP).1 = ENDPOINT_MAP ∧
     _gen_spec all_endpoints base_url offline request_base list_of_ctrl
       (_gen_spec all_endpoints base_url offline request_base list_of_ctrl
          ENDPOINT_MAP).1 =
     _gen_spec all_endpoints base_url offline request_base list_of_ctrl
       ENDPOINT_MAP).
Proof.
  pose proof (gen_paths_state all_endpoints ENDPOINT_MAP) as Hp.
  split; [done|]. split; [by rewrite Hp|].
  intros base_url offline request_base list_of_ctrl.
  assert (Hs : (_gen_spec all_endpoints base_url offline request_base
                  list_of_ctrl ENDPOINT_MAP).1 = ENDPOINT_MAP).
  { unfold _gen_spec, m_bind, m_lift, m_ret.
    destruct (if negb offline then _ else _); [|done].
    destruct (_gen_paths all_endpoints ENDPOINT_MAP) as [reg' [paths|err]];
      done. }
  split; [done | by rewrite Hs].
Qed.

Lemma gen_paths_registry_unchanged_witness :
  (_gen_paths false images_registry).1 = images_registry ∧
  parameter_count (_gen_paths false images_registry).2 "/images" "put"
    = Some 2%nat ∧
  parameter_count
    (_gen_paths false (_gen_paths false images_registry).1).2 "/images" "put"
    = Some 2%nat.
Proof.
  destruct (gen_paths_registry_unchanged false images_registry)
    as (H1 & H2 & _).
  split; [exact H1|]. rewrite H2. split; vm_compute; reflexivity.
Defined.

(** ** Further properties of the schema builder *)

(** The inner loop of [gen_props] on nested parameters is the loop of
    [_gen_schema_for_content]. *)
Lemma gen_props_inner_loop (ps : list param) :
  ∀ req props,
  (fix loop (ps : list param) (required_params : list string)
       (properties : list (string * schema))
     : result (list string * list (string * schema)) :=
     match ps with
     | [] => Ok (required_params, properties)
     | q :: ps' =>
         match gen_props q with
         | Raise e => Raise e
         | Ok props =>
             loop ps'
               (if p_required q then (required_params ++ [p_name q])%list
                else required_params)
               (dict_set properties (p_name q) props)
         end
     end) ps req props = gen_schema_loop ps req props.
Proof.
  induction ps as [|q ps IH]; intros req props; simpl; [done|].
  destruct (gen_props q); [apply IH | done].
Qed.

(** X1: a parameter with nested parameters is described by the schema of
    its nested list: as the [items] of an array when its explicit type is
    list or tuple, and otherwise in place of its own fragment, whose type is
    discarded; its description and default are carried over, and an error
    in the nested list is the result. *)
Theorem gen_props_nested (name : string) (required : bool)
    (dflt : option value) (t : marker) (description : option string)
    (nested : list param) :
  gen_props (mkParam name required dflt (Some t) description (Some nested)) =
  rbind (_gen_schema_for_content (PlainParams nested)) (λ sub,
    if is_sequence_type t then
      Ok (mkSchema "array" None (Some sub) None description dflt)
    else
      Ok (mkSchema (s_type sub) (s_properties sub) (s_items sub)
            (s_required sub)
            (match description with
             | Some d => Some d
             | None => s_description sub
             end)
            (match dflt with
             | Some v => Some v
             | None => s_default sub
             end))).
Proof.
  simpl. rewrite gen_props_inner_loop. unfold _gen_schema_for_content.
  destruct (gen_schema_loop nested [] []) as [[req props]|]; simpl.
  - destruct t; simpl; by destruct description, dflt.
  - by destruct t.
Qed.

Lemma dict_set_key_elem_of {V} (d : list (string * V)) (n k : string)
    (v : V) :
  k ∈ (dict_set d n v).*1 ↔ k = n ∨ k ∈ d.*1.
Proof.
  induction d as [|[k0 v0] d IH]; simpl.
  - rewrite elem_of_cons. split; [by intros [?|?]; [left|right]|].
    intros [?|H]; [by left | by apply elem_of_nil in H].
  - destruct (String.eqb_spec n k0) as [->|]; simpl;
      rewrite !elem_of_cons, ?IH; tauto.
Qed.

Lemma gen_schema_loop_required (params : list param) :
  ∀ req props req' props',
  gen_schema_loop params req props = Ok (req', props') →
  req' = (req ++ map p_name (List.filter p_required params))%list ∧
  (∀ k, k ∈ props'.*1 ↔ k ∈ props.*1 ∨ k ∈ map p_name params) ∧
  (NoDup props.*1 → NoDup props'.*1).
Proof.
  induction params as [|q ps IH]; intros req props req' props'; simpl.
  - intros [= <- <-]. rewrite app_nil_r. split; [done|]. split; [|done].
    intros k. split; [by left|]. intros [?|H]; [done|].
    by apply elem_of_nil in H.
  - destruct (gen_props q) as [f|]; [|done]. intros H.
    apply IH in H as (-> & Hk & Hnd). split; [|split].
    + destruct (p_required q); simpl; [|done]. by rewrite <- app_assoc.
    + intros k. rewrite Hk, elem_of_cons, dict_set_key_elem_of. tauto.
    + intros Hp. apply Hnd. by apply dict_set_keys.
Qed.

(** X2: when the schema builder succeeds on a parameter list, the
    [required] list of the schema holds the names of the required
    parameters in the order of the parameter list, and the keys of
    [properties] are the parameter names, each once. *)
Theorem gen_schema_required_order (params : list param) (s : schema) :
  _gen_schema_for_content (PlainParams params) = Ok s →
  s_type s = "object" ∧
  s_required s = Some (map p_name (List.filter p_required params)) ∧
  ∃ properties, s_properties s = Some properties ∧
    NoDup properties.*1 ∧
    ∀ k, k ∈ properties.*1 ↔ k ∈ map p_name params.
Proof.
  unfold _gen_schema_for_content.
  destruct (gen_schema_loop params [] []) as [[req props]|] eqn:E;
    simpl; [|done].
  intros [= <-]. apply gen_schema_loop_required in E as (-> & Hk & Hnd).
  simpl. split; [done|]. split; [done|]. exists props. split; [done|].
  split; [apply Hnd; constructor|].
  intros k. rewrite Hk. split; [|by right].
  intros [H|H]; [by apply elem_of_nil in H | done].
Qed.

Lemma gen_schema_required_order_witness :
  let params := [mkParam "b" true None None None None;
                 mkParam "x" false None None None None;
                 mkParam "a" true None None None None;
                 mkParam "c" true None None None None] in
  ∃ s, _gen_schema_for_content (PlainParams params) = Ok s ∧
       s_required s = Some ["b"; "a"; "c"].
Proof.
  intros params.
  destruct (is_ok_true (_gen_schema_for_content (PlainParams params)))
    as [s Hs]; [reflexivity|].
  exists s. split; [exact Hs|].
  exact (proj1 (proj2 (gen_schema_required_order params s Hs))).
Defined.

(** ** Further properties of the parameter merger *)

Lemma add_param_info_step_eq (p : override) (parameters : list param) :
  add_param_info_step p parameters =
  if o_nested p then
    (parameters ++
     [mkParam (o_name p) (o_required p) (o_default p) (Some (o_type p))
        (Some (o_description p)) (nested_merged p)])%list
  else
    map (λ parameter,
           if String.eqb (o_name p) (p_name parameter)
           then overwrite p parameter else parameter) parameters.
Proof.
  destruct p as [n t d r nested dflt np].
  assert (Hgo : ∀ qs acc,
    (fix go (qs : list override) (acc : list param) : list param :=
       match qs with
       | [] => acc
       | q :: qs' => go qs' (add_param_info_step q acc)
       end) qs acc = _add_param_info acc qs).
  { induction qs as [|q qs IH]; intros acc; [done|]. simpl. by rewrite IH. }
  unfold nested_merged, overwrite. simpl.
  destruct np as [qs|]; simpl; rewrite ?Hgo; by destruct nested.
Qed.

(** X3: the merger never removes or renames a parameter and never
    changes a required flag or a default: the list returned has the
    registered entries first, with their names, flags and defaults, followed
    by one entry for each description flagged nested, in their order. *)
Theorem add_param_info_base (parameters : list param)
    (p_info : list override) :
  map param_base (_add_param_info parameters p_info) =
  (map param_base parameters ++
   map override_base (List.filter o_nested p_info))%list.
Proof.
  revert parameters. induction p_info as [|p l IH]; intros parameters.
  - simpl. by rewrite app_nil_r.
  - rewrite add_param_info_cons, IH, add_param_info_step_eq. simpl.
    destruct (o_nested p); simpl.
    + by rewrite map_app, <- app_assoc.
    + f_equal. rewrite map_map. apply map_ext. intros x.
      by destruct (String.eqb _ _).
Qed.

(** The merge of descriptions that are not flagged nested, on one
    parameter. *)
Lemma add_param_info_pointwise (p_info : list override) :
  (∀ p, p ∈ p_info → o_nested p = false) →
  ∀ parameters,
    _add_param_info parameters p_info =
    map (λ x, foldl (λ acc p, overwrite p acc) x
                (List.filter (λ p, String.eqb (o_name p) (p_name x)) p_info))
      parameters.
Proof.
  induction p_info as [|p l IH]; intros H parameters.
  - simpl. by rewrite map_id.
  - rewrite add_param_info_cons, add_param_info_step_eq.
    rewrite (H p) by (by left).
    rewrite IH by (intros q Hq; apply H; by right).
    rewrite map_map. apply map_ext. intros x. simpl.
    by destruct (String.eqb (o_name p) (p_name x)).
Qed.

Lemma overwrite_fold_base (S : list override) (x : param) :
  param_base (foldl (λ acc p, overwrite p acc) x S) = param_base x.
Proof.
  revert x. induction S as [|p S IH]; intros x; [done|].
  simpl. by rewrite IH.
Qed.

Lemma overwrite_fold_nested (S : list override) :
  (∀ x, p_nested_params (foldl (λ acc p, overwrite p acc) x S)
        = p_nested_params x) ∨
  (∀ x y, p_nested_params (foldl (λ acc p, overwrite p acc) x S)
          = p_nested_params (foldl (λ acc p, overwrite p acc) y S)).
Proof.
  induction S as [|p S IH]; [by left|]. simpl.
  destruct (nested_merged p) as [l|] eqn:E.
  - right. intros x y. destruct IH as [IH|IH].
    + rewrite !IH. unfold overwrite. by rewrite E.
    + apply IH.
  - destruct IH as [IH|IH].
    + left. intros x. rewrite IH. unfold overwrite. by rewrite E.
    + right. intros x y. apply IH.
Qed.

Lemma overwrite_fold_type (S : list override) (x y : param) :
  S ≠ [] →
  p_type (foldl (λ acc p, overwrite p acc) x S)
    = p_type (foldl (λ acc p, overwrite p acc) y S) ∧
  p_description (foldl (λ acc p, overwrite p acc) x S)
    = p_description (foldl (λ acc p, overwrite p acc) y S).
Proof.
  revert x y. induction S as [|p S IH]; intros x y H; [done|]. simpl.
  destruct S as [|q S]; [done|]. by apply IH.
Qed.

Lemma overwrite_fold_idem (S : list override) (x : param) :
  foldl (λ acc p, overwrite p acc) (foldl (λ acc p, overwrite p acc) x S) S
  = foldl (λ acc p, overwrite p acc) x S.
Proof.
  destruct (decide (S = [])) as [->|Hne]; [done|].
  set (F := foldl (λ acc p, overwrite p acc)).
  pose proof (overwrite_fold_base S (F x S)) as Hb.
  pose proof (overwrite_fold_type S (F x S) x Hne) as [Ht Hd].
  assert (Hn : p_nested_params (F (F x S) S) = p_nested_params (F x S)).
  { destruct (overwrite_fold_nested S) as [H|H]; [by rewrite H | apply H]. }
  fold F in Hb, Ht, Hd. unfold param_base in Hb.
  destruct (F (F x S) S), (F x S). simpl in *. congruence.
Qed.

(** X4: merging the same explicit descriptions a second time changes
    nothing when none of them is flagged nested: the second merge of the
    query parameters of a POST or PUT endpoint, and the merges of a later
    generation, then find the lists as the first merge left them. *)
Theorem add_param_info_idempotent (parameters : list param)
    (p_info : list override) :
  (∀ p, p ∈ p_info → o_nested p = false) →
  _add_param_info (_add_param_info parameters p_info) p_info =
  _add_param_info parameters p_info.
Proof.
  intros H. rewrite !(add_param_info_pointwise p_info H), map_map.
  apply map_ext. intros x.
  pose proof (overwrite_fold_base
    (List.filter (λ p, String.eqb (o_name p) (p_name x)) p_info) x) as Hb.
  injection Hb as Hn _ _. rewrite Hn. apply overwrite_fold_idem.
Qed.

Lemma add_param_info_idempotent_witness :
  let base := [mkParam "pool" true None None None None;
               mkParam "count" false (Some (VInt 1)) None None None] in
  let p_info := [mkOverride "pool" Tstr "Name of the pool" true false None
                   (Some [mkOverride "id" Tint "Identifier" true true None
                            None]);
                 mkOverride "pool" Tint "Pool number" true false None None] in
  _add_param_info (_add_param_info base p_info) p_info =
  _add_param_info base p_info.
Proof.
  intros base p_info. apply add_param_info_idempotent.
  intros p [->|[->|H]%elem_of_cons]%elem_of_cons.
  - reflexivity.
  - reflexivity.
  - destruct (proj1 (elem_of_nil _) H).
Defined.

(** ** Further properties of the parameter objects *)

Lemma gen_params_forall2 (params : list param) (location : string)
    (res : list parameter_obj) :
  _gen_params params location = Ok res →
  Forall2 (λ prm po, gen_param prm location = Ok po) params res.
Proof.
  revert res. induction params as [|q l IH]; intros res; simpl.
  - intros [= <-]. constructor.
  - destruct (gen_param q location) as [po|] eqn:E; [|done].
    destruct (_gen_params l location) as [pos|]; [|done].
    intros [= <-]. constructor; [done | by apply IH].
Qed.

Ltac in_list :=
  repeat first [apply list_elem_of_here | apply list_elem_of_further].

Lemma gen_type_inferred (prm : param) :
  _gen_type prm ∈ ["boolean"; "integer"; "string"].
Proof.
  unfold _gen_type.
  repeat (match goal with
          | |- context [if ?b then _ else _] => destruct b
          end); simpl; in_list.
Qed.

(** X5: [_gen_params] returns normally exactly when every parameter that
    is not required has a ['default'] key; it then returns one entry per
    parameter, in order, with the parameter's name and the given
    location. *)
Theorem gen_params_succeeds_iff (params : list param) (location : string) :
  ((∃ res, _gen_params params location = Ok res) ↔
   ∀ prm, prm ∈ params → p_required prm = true ∨ is_Some (p_default prm)) ∧
  (∀ res, _gen_params params location = Ok res →
     map po_name res = map p_name params ∧
     ∀ po, po ∈ res → po_in po = location).
Proof.
  split; [split|].
  - intros [res H] prm Hin.
    destruct (p_required prm) eqn:Hr; [by left|]. right.
    destruct (p_default prm) eqn:Hd; [done|].
    rewrite (gen_params_missing_default _ _ prm Hin Hr Hd) in H. done.
  - induction params as [|q l IH]; intros H; simpl; [by eexists|].
    destruct IH as [res Hres]; [intros prm Hin; apply H; by right|].
    rewrite Hres. unfold gen_param.
    destruct (H q) as [Hr|[v Hv]]; [by left| |].
    + rewrite Hr. by eexists.
    + rewrite Hv. destruct (p_required q); [by eexists|].
      destruct v; by eexists.
  - intros res H. apply gen_params_forall2 in H.
    induction H as [|prm po l res Hp _ [IH1 IH2]]; [split; [done|]|].
    + intros po H. by apply elem_of_nil in H.
    + assert (po_name po = p_name prm ∧ po_in po = location) as [Hn Hl].
      { unfold gen_param in Hp. destruct (p_required prm).
        - by injection Hp as <-.
        - destruct (p_default prm) as [[]|]; [..|done];
            by injection Hp as <-. }
      split; [simpl; by rewrite Hn, IH1|].
      intros po' [->|Hin]%elem_of_cons; [done | by apply IH2].
Qed.

Lemma gen_params_succeeds_iff_witness :
  ∃ res, _gen_params [mkParam "pool" true None None None None;
                      mkParam "count" false (Some (VInt 1)) None None None]
           "query" = Ok res.
Proof.
  apply (proj2 (proj1 (gen_params_succeeds_iff _ "query"))).
  intros prm [->|[->|H]%elem_of_cons]%elem_of_cons.
  - left. reflexivity.
  - right. eexists. reflexivity.
  - destruct (proj1 (elem_of_nil _) H).
Defined.

(** X6: every entry that [_gen_params] returns carries exactly one of
    [required: True], [allowEmptyValue: True] and a ['default'] that is not
    [None]; its schema type is one of the six primitives, an inferred one
    being boolean, integer or string; and its description, when present, is
    not empty. *)
Theorem gen_params_entry_shape (params : list param) (location : string)
    (res : list parameter_obj) (po : parameter_obj) :
  _gen_params params location = Ok res → po ∈ res →
  ((po_required po = true ∧ po_allowEmptyValue po = false ∧
    po_default po = None) ∨
   (po_required po = false ∧ po_allowEmptyValue po = true ∧
    po_default po = None) ∨
   (po_required po = false ∧ po_allowEmptyValue po = false ∧
    ∃ v, po_default po = Some v ∧ v ≠ VNone)) ∧
  po_schema_type po ∈ schema_primitives ∧
  po_description po ≠ Some "".
Proof.
  intros H Hin. apply gen_params_forall2 in H.
  assert (∃ prm, gen_param prm location = Ok po) as [prm Hp].
  { apply list_elem_of_lookup_1 in Hin as [i Hi].
    destruct (Forall2_lookup_r _ _ _ _ _ H Hi) as (prm & _ & Hp).
    by exists prm. }
  clear H Hin.
  assert (Hty : match p_type prm with
                | Some t => _type_to_str t
                | None => _gen_type prm
                end ∈ schema_primitives).
  { destruct (p_type prm) as [t|].
    - unfold schema_primitives. destruct t; simpl; in_list.
    - pose proof (gen_type_inferred prm) as Hi. unfold schema_primitives.
      repeat (apply elem_of_cons in Hi as [->|Hi]; [in_list|]).
      by apply elem_of_nil in Hi. }
  assert (Hde : match p_description prm with
                | Some d => if nonempty d then Some d else None
                | None => None
                end ≠ Some "").
  { destruct (p_description prm) as [[|c d]|]; simpl; congruence. }
  unfold gen_param in Hp. destruct (p_required prm).
  - injection Hp as <-. simpl. auto.
  - destruct (p_default prm) as [v|]; [|done].
    destruct v; injection Hp as <-; simpl;
      (split; [|by split]); [by right; left | right; right ..];
      (split; [done|]); (split; [done|]); eexists; (split; [done|]); done.
Qed.

Lemma gen_params_entry_shape_witness :
  let params := [mkParam "pool" true None None (Some "") None;
                 mkParam "count" false (Some (VInt 1)) None None None] in
  ∃ res, _gen_params params "query" = Ok res ∧
    ∀ po, po ∈ res →
      po_schema_type po ∈ schema_primitives ∧ po_description po ≠ Some "".
Proof.
  intros params.
  destruct (is_ok_true (_gen_params params "query")) as [res Hres];
    [reflexivity|].
  exists res. split; [exact Hres|]. intros po Hpo.
  exact (proj2 (gen_params_entry_shape params "query" res po Hres Hpo)).
Defined.

(** ** Further properties of the response builder *)

Lemma overlay_responses_ok (resp_object : list (string * content_input)) :
  ∀ resp resp',
  overlay_responses resp_object resp = Ok resp' →
  dom resp' = dom resp ∧
  ∀ k r', resp' !! k = Some r' →
    ∃ r, resp !! k = Some r ∧ r_description r' = r_description r ∧
      (r_content r' = r_content r ∨
       ∃ body s, (k, body) ∈ resp_object ∧
                 _gen_schema_for_content body = Ok s ∧
                 r_content r' = Some (SchemaContent s)).
Proof.
  induction resp_object as [|[code body] rest IH]; intros resp resp'; simpl.
  - intros [= <-]. split; [done|]. intros k r' H. exists r'. auto.
  - destruct (resp !! code) as [r|] eqn:Hr.
    + destruct (_gen_schema_for_content body) as [s|] eqn:Hs; [|done].
      intros H. apply IH in H as [Hdom Hget]. split.
      * rewrite Hdom, dom_insert_L.
        apply elem_of_dom_2 in Hr. set_solver.
      * intros k r' Hk. destruct (Hget k r' Hk) as (r1 & Hr1 & Hd & Hc).
        destruct (decide (code = k)) as [->|Hne].
        -- rewrite lookup_insert_eq in Hr1. injection Hr1 as <-.
           exists r. split; [done|]. split; [done|]. right.
           destruct Hc as [Hc|(b & s' & Hin & Hs' & Hc)].
           ++ exists body, s. split; [by left | done].
           ++ exists b, s'. split; [by right | done].
        -- rewrite lookup_insert_ne in Hr1 by done.
           exists r1. split; [done|]. split; [done|].
           destruct Hc as [Hc|(b & s' & Hin & Hs' & Hc)]; [by left|].
           right. exists b, s'. split; [by right | done].
    + intros H. apply IH in H as [Hdom Hget]. split; [done|].
      intros k r' Hk. destruct (Hget k r' Hk) as (r1 & Hr1 & Hd & Hc).
      exists r1. split; [done|]. split; [done|].
      destruct Hc as [Hc|(b & s' & Hin & Hs' & Hc)]; [by left|].
      right. exists b, s'. split; [by right | done].
Qed.

(** X7: explicit response bodies never add or remove a status code and
    never change a description: when [_gen_responses] returns, its key set
    and descriptions are those of the same call without explicit bodies,
    and the content of a code is either the standard one or the schema
    built from an explicit body given for that very code. *)
Theorem gen_responses_overlay (method : string)
    (resp_object : list (string * content_input))
    (resp : gmap string response) :
  _gen_responses method resp_object = Ok resp →
  ∃ resp0, _gen_responses method [] = Ok resp0 ∧
    dom resp = dom resp0 ∧
    ∀ k r, resp !! k = Some r →
      ∃ r0, resp0 !! k = Some r0 ∧ r_description r = r_description r0 ∧
        (r_content r = r_content r0 ∨
         ∃ body s, (k, body) ∈ resp_object ∧
                   _gen_schema_for_content body = Ok s ∧
                   r_content r = Some (SchemaContent s)).
Proof.
  unfold _gen_responses. intros H. eexists. split; [reflexivity|].
  by apply overlay_responses_ok in H.
Qed.

Lemma gen_responses_overlay_witness :
  ∃ resp resp0,
    _gen_responses "GET"
      [("200", PlainParams [mkParam "name" true None None None None]);
       ("404", PlainParams [])] = Ok resp ∧
    _gen_responses "GET" [] = Ok resp0 ∧ dom resp = dom resp0.
Proof.
  destruct (is_ok_true (_gen_responses "GET"
              [("200", PlainParams [mkParam "name" true None None None None]);
               ("404", PlainParams [])])) as [resp Hresp];
    [vm_compute; reflexivity|].
  destruct (gen_responses_overlay _ _ _ Hresp) as (resp0 & H0 & Hdom & _).
  exists resp, resp0. split; [exact Hresp|]. split; [exact H0 | exact Hdom].
Defined.

(** ** Further properties of the tag assembler *)

Lemma selected_ctrls_elem_of (all_endpoints : bool)
    (ENDPOINT_MAP : gmap string (list endpoint)) (c : controller) :
  c ∈ selected_ctrls all_endpoints ENDPOINT_MAP ↔
  ∃ path endpoints e,
    ENDPOINT_MAP !! path = Some endpoints ∧ e ∈ endpoints ∧
    negb (is_backend_api e) || all_endpoints = true ∧ ctrl e = c.
Proof.
  unfold selected_ctrls. rewrite list_elem_of_fmap. split.
  - intros (e & -> & He). apply list_elem_of_In, filter_In in He as [He Hb].
    apply in_concat in He as (es & Hes & He).
    apply list_elem_of_In, list_elem_of_fmap in Hes as ([path es'] & -> & Hp).
    apply elem_of_map_to_list in Hp. exists path, es', e.
    split; [done|]. split; [by apply list_elem_of_In | done].
  - intros (path & es & e & Hp & He & Hb & <-). exists e. split; [done|].
    apply list_elem_of_In, filter_In. split; [|done].
    apply in_concat. exists es. split; [|by apply list_elem_of_In].
    apply list_elem_of_In, list_elem_of_fmap. exists (path, es).
    split; [done|]. by apply elem_of_map_to_list.
Qed.

Lemma tag_map_claimed (l : list controller) :
  ∀ (m : list (string * string)) (t : string),
  is_Some (dict_get (foldl tag_map_step m l) t) ↔
  is_Some (dict_get m t) ∨ ∃ c, c ∈ l ∧ (ctrl_tag c).1 = t.
Proof.
  induction l as [|c l IH]; intros m t; simpl.
  - split; [by left|]. intros [?|(c & H & _)]; [done|].
    by apply elem_of_nil in H.
  - rewrite IH, tag_map_step_get.
    destruct (String.eqb_spec t (ctrl_tag c).1) as [Ht|Ht].
    + split.
      * intros _. right. exists c. split; [by left | done].
      * intros _. left. destruct (dict_get m t) as [v|]; [|by eexists].
        destruct (nonempty v); by eexists.
    + split.
      * intros [?|(c' & Hc' & Hc't)]; [by left|]. right. exists c'.
        split; [by right | done].
      * intros [?|(c' & [->|Hc']%elem_of_cons & Hc't)]; [by left|done|].
        right. by exists c'.
Qed.

Lemma tag_map_stays_empty (l : list controller) :
  ∀ (m : list (string * string)) (t : string),
  (∀ c, c ∈ l → (ctrl_tag c).1 = t → (ctrl_tag c).2 = "") →
  dict_get m t = None ∨ dict_get m t = Some "" →
  dict_get (foldl tag_map_step m l) t = None ∨
  dict_get (foldl tag_map_step m l) t = Some "".
Proof.
  induction l as [|c l IH]; intros m t Hall Hm; [done|]. simpl.
  apply IH; [intros c' Hc'; apply Hall; by right|].
  rewrite tag_map_step_get.
  destruct (String.eqb_spec t (ctrl_tag c).1) as [Ht|Ht]; [|done].
  rewrite (Hall c) by (by left || done).
  destruct Hm as [-> | ->]; by right.
Qed.

Lemma gen_tags_declares (order : list controller) (n : string) :
  n ∈ map t_name (_gen_tags order) ↔ ∃ c, c ∈ order ∧ (ctrl_tag c).1 = n.
Proof.
  rewrite list_elem_of_fmap. split.
  - intros (tg & -> & (v & Hv & _)%gen_tags_elem_of).
    apply mk_is_Some, tag_map_claimed in Hv as [[? H]|H]; done.
  - intros H.
    assert (Hs : is_Some (dict_get (foldl tag_map_step [] order) n))
      by (apply tag_map_claimed; by right).
    destruct Hs as [v Hv].
    exists (mkTag n (if nonempty v then v else NO_DESCRIPTION_AVAILABLE)).
    split; [done|]. apply gen_tags_elem_of. by exists v.
Qed.

(** X8: the tags returned are exactly the tag names of the controllers
    processed, no description in the result is empty, and a tag whose
    controllers all have an empty description gets the placeholder
    [NO_DESCRIPTION_AVAILABLE]. *)
Theorem gen_tags_names (order : list controller) :
  (∀ n, n ∈ map t_name (_gen_tags order) ↔
        ∃ c, c ∈ order ∧ (ctrl_tag c).1 = n) ∧
  (∀ tg, tg ∈ _gen_tags order → t_description tg ≠ "") ∧
  (∀ t, (∃ c, c ∈ order ∧ (ctrl_tag c).1 = t) →
        (∀ c, c ∈ order → (ctrl_tag c).1 = t → (ctrl_tag c).2 = "") →
        mkTag t NO_DESCRIPTION_AVAILABLE ∈ _gen_tags order).
Proof.
  split; [|split].
  - apply gen_tags_declares.
  - intros tg (v & _ & ->)%gen_tags_elem_of.
    destruct v; simpl; discriminate.
  - intros t Hc Hall. apply gen_tags_elem_of. simpl.
    destruct (tag_map_stays_empty order [] t Hall) as [Hn|He]; [by left| |].
    + assert (Hs : is_Some (dict_get (foldl tag_map_step [] order) t))
        by (apply tag_map_claimed; by right).
      rewrite Hn in Hs. by destruct Hs.
    + by exists "".
Qed.

Lemma gen_tags_names_witness :
  mkTag "Pool" NO_DESCRIPTION_AVAILABLE ∈
    _gen_tags [mkController "Pool" None;
               mkController "Volume" (Some (mkCtrlDocInfo "" "Volumes"))].
Proof.
  apply (proj2 (proj2 (gen_tags_names _)) "Pool").
  - eexists. split; [left | reflexivity].
  - intros c [->|[->|H]%elem_of_cons]%elem_of_cons.
    + reflexivity.
    + discriminate.
    + destruct (proj1 (elem_of_nil _) H).
Defined.

(** X9: among controllers with the same tag, the first one in the
    iteration that has a non-empty description decides: controllers
    processed later never replace it, whatever their descriptions. *)
Theorem gen_tags_first_description (pre post : list controller)
    (c : controller) (t d : string) :
  ctrl_tag c = (t, d) → d ≠ "" →
  (∀ c', c' ∈ pre → (ctrl_tag c').1 = t → (ctrl_tag c').2 = "") →
  mkTag t d ∈ _gen_tags (pre ++ c :: post).
Proof.
  intros Hc Hd Hpre. apply gen_tags_elem_of. simpl. exists d.
  apply nonempty_true in Hd as Hd'. rewrite Hd'. split; [|done].
  rewrite foldl_app. simpl. apply tag_map_keeps_nonempty; [done|].
  rewrite tag_map_step_get, Hc. simpl. rewrite String.eqb_refl.
  by destruct (tag_map_stays_empty pre [] t Hpre) as [-> | ->]; [left|..].
Qed.

Lemma gen_tags_first_description_witness :
  let a := mkController "A" (Some (mkCtrlDocInfo "auth" "")) in
  let b := mkController "B" (Some (mkCtrlDocInfo "auth" "first")) in
  let c := mkController "C" (Some (mkCtrlDocInfo "auth" "second")) in
  mkTag "auth" "first" ∈ _gen_tags [a; b; c] ∧
  mkTag "auth" "second" ∈ _gen_tags [a; c; b].
Proof.
  intros a b c. split.
  - apply (gen_tags_first_description [a] [c] b "auth" "first");
      [reflexivity | discriminate |].
    intros c' [->|H]%elem_of_cons _; [reflexivity|].
    destruct (proj1 (elem_of_nil _) H).
  - apply (gen_tags_first_description [a] [b] c "auth" "second");
      [reflexivity | discriminate |].
    intros c' [->|H]%elem_of_cons _; [reflexivity|].
    destruct (proj1 (elem_of_nil _) H).
Defined.

(** X10: the tag assigned to an operation is declared in the tag list:
    for an endpoint that is selected for the document and whose handler
    gives no tag of its own, [_get_tag] returns a name that [_gen_tags]
    lists; a handler-level tag, when given, is used as it is. *)
Theorem get_tag_declared (all_endpoints : bool)
    (ENDPOINT_MAP : gmap string (list endpoint)) (order : list controller)
    (path : string) (endpoints : list endpoint) (e : endpoint) :
  iteration_of all_endpoints ENDPOINT_MAP order →
  ENDPOINT_MAP !! path = Some endpoints → e ∈ endpoints →
  is_backend_api e = false ∨ all_endpoints = true →
  match h_doc_info (func e) with
  | Some d =>
      if nonempty (fd_tag d) then _get_tag e = fd_tag d
      else _get_tag e ∈ map t_name (_gen_tags order)
  | None => _get_tag e ∈ map t_name (_gen_tags order)
  end.
Proof.
  intros Hiter Hp He Hsel.
  assert (Hdecl : (ctrl_tag (ctrl e)).1 ∈ map t_name (_gen_tags order)).
  { apply gen_tags_declares. exists (ctrl e).
    split; [|done]. apply Hiter, selected_ctrls_elem_of.
    exists path, endpoints, e. split; [done|]. split; [done|].
    split; [|done]. destruct Hsel as [-> | ->]; [done|].
    by destruct (is_backend_api e). }
  assert (Heq : (ctrl_tag (ctrl e)).1 =
                match c_doc_info (ctrl e) with
                | Some cd => if nonempty (cd_tag cd) then cd_tag cd
                             else c_name (ctrl e)
                | None => c_name (ctrl e)
                end).
  { unfold ctrl_tag. by destruct (c_doc_info (ctrl e)). }
  unfold _get_tag. rewrite <- Heq.
  destruct (h_doc_info (func e)) as [d|]; [|done].
  by destruct (nonempty (fd_tag d)).
Qed.

(** ** Further properties of the path assembler *)

(** X11: the operation object of an endpoint: its only tag is the one
    [_get_tag] gives, its description is the docstring of the handler, its
    responses are those of the response builder for its method, its
    parameters are the objects of the merged path parameters followed by
    those of the merged query parameters, and unless the method is POST or
    PUT it has no request body. *)
Theorem gen_operation_result (e e' : endpoint) (op : operation) :
  gen_operation e = (e', Ok op) →
  op_tags op = [_get_tag e] ∧
  op_description op = h_doc (func e) ∧
  _gen_responses (method e)
    (match h_doc_info (func e) with
     | Some d => fd_response d
     | None => []
     end) = Ok (op_responses op) ∧
  (∃ from_path from_query,
     op_parameters op = (from_path ++ from_query)%list ∧
     (if is_empty (path_params e) then from_path = []
      else _gen_params (_add_param_info (path_params e) (p_info_of e))
             "path" = Ok from_path) ∧
     (if is_empty (query_params e) then from_query = []
      else _gen_params (_add_param_info (query_params e) (p_info_of e))
             "query" = Ok from_query)) ∧
  (lower (method e) ∉ ["post"; "put"] → op_requestBody op = None).
Proof.
  destruct e as [m c f b pp qp bp]. unfold p_info_of.
  unfold_operation. simpl_operation.
  repeat (case_operation; simpl_operation);
    intros [= <- <-]; cbn;
    repeat match goal with
      | H : bool_decide _ = true |- _ => apply bool_decide_eq_true_1 in H
      | H : is_empty _ = _ |- _ => rewrite H
      end;
    (split; [reflexivity|]); (split; [reflexivity|]);
    (split; [reflexivity|]); (split; [eexists _, _; by repeat split|]);
    try done.
Qed.

Lemma gen_operation_result_witness :
  ∃ op, (gen_operation
           (mkEndpoint "DELETE" (mkController "Volume" None)
              (mkHandler (Some "Delete a volume.") None false) false
              [mkParam "volume_id" true None None None None] [] [])).2
          = Ok op ∧
        op_tags op = ["Volume"] ∧ op_requestBody op = None.
Proof.
  set (e := mkEndpoint "DELETE" (mkController "Volume" None)
              (mkHandler (Some "Delete a volume.") None false) false
              [mkParam "volume_id" true None None None None] [] []).
  destruct (is_ok_true (gen_operation e).2) as [op Hop];
    [vm_compute; reflexivity|].
  exists op. split; [exact Hop|].
  destruct (gen_operation_result e (gen_operation e).1 op
              (eq_trans (surjective_pairing _) (f_equal (pair _) Hop)))
    as (Ht & _ & _ & _ & Hb).
  split; [exact Ht|]. apply Hb.
  intros [H|[H|H]%elem_of_cons]%elem_of_cons;
    [discriminate H | discriminate H | destruct (proj1 (elem_of_nil _) H)].
Defined.

Lemma list_index_raises (x : string) (l : list string) :
  x ∉ l → list_index x l = Raise ValueError.
Proof.
  induction l as [|y l IH]; [done|]. intros [Hne Hl]%not_elem_of_cons.
  simpl. destruct (String.eqb_spec x y); [done|]. by rewrite IH.
Qed.

Lemma result_map_raises {A B} (f : A → result B) (l : list A) (x : A)
    (err : exn) :
  x ∈ l → f x = Raise err → (∀ y e, f y = Raise e → e = err) →
  result_map f l = Raise err.
Proof.
  intros Hin Hx Herr. induction l as [|y l IH]; [by apply elem_of_nil in Hin|].
  simpl. destruct (f y) as [b|e] eqn:E; simpl.
  - apply elem_of_cons in Hin as [->|Hin]; [congruence|].
    by rewrite IH.
  - by rewrite (Herr _ _ E).
Qed.

Lemma endpoint_list_raises (endpoints : list endpoint) (e : endpoint) :
  e ∈ endpoints → lower (method e) ∉ method_order →
  endpoint_list endpoints = Raise ValueError.
Proof.
  intros [i Hi]%list_elem_of_lookup_1 Hm. unfold endpoint_list.
  rewrite (result_map_raises _ _ (i, e) ValueError); [done| | |].
  - apply elem_of_lookup_imap. by exists i, e.
  - cbn [snd]. by rewrite list_index_raises.
  - intros [j y] err. cbn [snd].
    destruct (list_index (lower (method y)) method_order) eqn:E; [done|].
    simpl. intros [= <-]. clear -E. revert E.
    generalize (lower (method y)) method_order. intros x l.
    induction l as [|z l IH]; simpl; [by intros [= <-]|].
    destruct (String.eqb x z); [done|].
    destruct (list_index x l); simpl; [done|]. intros [= <-]. by apply IH.
Qed.

Lemma gen_paths_loop_raises (all_endpoints : bool)
    (items : list (string * list endpoint)) (path : string)
    (endpoints : list endpoint) (err : exn) :
  (path, endpoints) ∈ items →
  (gen_path all_endpoints endpoints).2 = Raise err →
  ∀ paths reg, ∃ err', (gen_paths_loop all_endpoints items paths reg).2
                       = Raise err'.
Proof.
  intros Hin Herr. induction items as [|[p es] rest IH]; intros paths reg.
  - by apply elem_of_nil in Hin.
  - simpl. unfold m_bind, at_path.
    destruct (gen_path all_endpoints es) as [es' [[skip ms]|e]] eqn:E;
      [|by eexists].
    apply elem_of_cons in Hin as [[= -> ->]|Hin].
    + rewrite E in Herr. done.
    + by apply IH.
Qed.

(** X12: an endpoint whose method, in lower case, is not get, post, put
    or delete makes the generation fail: sorting the endpoints of its path
    raises [ValueError] before any of them is looked at, also when the path
    would have been left out as internal-only, and [_gen_paths] returns no
    document. *)
Theorem gen_paths_unknown_method (all_endpoints : bool)
    (ENDPOINT_MAP : gmap string (list endpoint)) (path : string)
    (endpoints : list endpoint) (e : endpoint) :
  ENDPOINT_MAP !! path = Some endpoints → e ∈ endpoints →
  lower (method e) ∉ method_order →
  gen_path all_endpoints endpoints = (endpoints, Raise ValueError) ∧
  ∃ err, (_gen_paths all_endpoints ENDPOINT_MAP).2 = Raise err.
Proof.
  intros Hp He Hm.
  assert (Hg : gen_path all_endpoints endpoints
               = (endpoints, Raise ValueError)).
  { unfold gen_path, m_bind, m_gets, m_lift, id.
    by rewrite (endpoint_list_raises _ _ He Hm). }
  split; [done|]. unfold _gen_paths, m_bind, m_gets.
  eapply gen_paths_loop_raises.
  - by apply (proj2 (sorted_items ENDPOINT_MAP)).
  - by rewrite Hg.
Qed.

Lemma gen_paths_unknown_method_witness :
  let e := mkEndpoint "PATCH" (mkController "Volume" None)
             (mkHandler None None false) true [] [] [] in
  ∃ err, (_gen_paths false {["/volumes" := [e]]}).2 = Raise err.
Proof.
  intros e.
  refine (proj2 (gen_paths_unknown_method false {["/volumes" := [e]]}
                   "/volumes" [e] e _ _ _)).
  - apply lookup_singleton_eq.
  - left.
  - intros H. unfold method_order in H.
    repeat (apply elem_of_cons in H as [H|H]; [discriminate H|]).
    destruct (proj1 (elem_of_nil _) H).
Defined.

(** X13: every operation of a generated document comes from a registered
    endpoint of that path with that method in lower case, and that endpoint
    is not internal-only unless the include-internal flag is set: the
    public document never shows an operation of an internal-only endpoint,
    and never a path that is not registered. *)
Theorem gen_paths_provenance (all_endpoints : bool)
    (ENDPOINT_MAP reg' : gmap string (list endpoint))
    (paths : gmap string (gmap string operation)) (path : string)
    (methods : gmap string operation) (m : string) (op : operation) :
  _gen_paths all_endpoints ENDPOINT_MAP = (reg', Ok paths) →
  paths !! path = Some methods → methods !! m = Some op →
  ∃ endpoints e e',
    ENDPOINT_MAP !! path = Some endpoints ∧ e ∈ endpoints ∧
    lower (method e) = m ∧ gen_operation e = (e', Ok op) ∧
    (is_backend_api e = false ∨ all_endpoints = true).
Proof.
  intros H Hp Hm. apply gen_paths_ok in H as [Hnone Hsome].
  destruct (ENDPOINT_MAP !! path) as [endpoints|] eqn:Hreg;
    [|rewrite (Hnone path) in Hp; done].
  destruct (Hsome _ _ Hreg) as (es' & skip & ms & Hg & Hl).
  rewrite Hp in Hl. destruct skip; [done|]. injection Hl as ->.
  apply gen_path_ok in Hg as [_ Hkeep].
  destruct Hkeep as (Hback & _ & Hfrom); [done|].
  destruct (Hfrom _ _ Hm) as (e & e' & He & Hem & Hop).
  exists endpoints, e, e'. repeat split; try done. by apply Hback.
Qed.

Lemma gen_paths_provenance_witness :
  ∃ paths methods op e e',
    (_gen_paths true volumes_registry).2 = Ok paths ∧
    paths !! "/volumes" = Some methods ∧ methods !! "post" = Some op ∧
    lower (method e) = "post" ∧ gen_operation e = (e', Ok op).
Proof.
  destruct (parameter_count_some (_gen_paths true volumes_registry).2
              "/volumes" "post" 1)
    as (paths & methods & op & Hok & Hms & Hop & _); [vm_compute; reflexivity|].
  destruct (gen_paths_provenance true volumes_registry
              (_gen_paths true volumes_registry).1 paths "/volumes" methods
              "post" op
              (eq_trans (surjective_pairing _) (f_equal (pair _) Hok))
              Hms Hop) as (es & e & e' & _ & _ & Hm & Hg & _).
  exists paths, methods, op, e, e'. repeat (split; [assumption|]). exact Hg.
Defined.

(** ** Properties of the spec assembler *)

Lemma append_assoc (a b c : string) : (a +:+ b) +:+ c = a +:+ (b +:+ c).
Proof.
  induction a as [|x a IH]; [done|].
  change (String x ((a +:+ b) +:+ c) = String x (a +:+ (b +:+ c))).
  by rewrite IH.
Qed.

Lemma substring_all (s : string) : String.substring 0 (String.length s) s = s.
Proof. induction s as [|c s IH]; [done|]. cbn. by rewrite IH. Qed.

Lemma substring_after (a r : string) :
  String.substring (String.length a)
    (String.length (a +:+ r) - String.length a) (a +:+ r) = r.
Proof.
  induction a as [|c a IH]; cbn.
  - rewrite Nat.sub_0_r. apply substring_all.
  - apply IH.
Qed.

Lemma after_first_eq (sep s : string) :
  after_first sep s =
  if String.prefix sep s
  then Ok (String.substring (String.length sep)
             (String.length s - String.length sep) s)
  else
    match s with
    | EmptyString => Raise IndexError
    | String _ s' => after_first sep s'
    end.
Proof. by destruct s. Qed.

Lemma after_first_ok (sep s rest : string) :
  after_first sep s = Ok rest → ∃ before, s = before +:+ sep +:+ rest.
Proof.
  induction s as [|c s IH]; rewrite after_first_eq;
    (destruct (String.prefix sep _) eqn:E;
     [apply prefix_starts_with in E as [r Hr]; rewrite Hr, substring_after;
      intros [= <-]; by exists ""|]).
  - done.
  - intros H. destruct (IH H) as [before ->]. by exists (String c before).
Qed.

Lemma after_first_raises (sep s : string) :
  ¬ occurs_in sep s → after_first sep s = Raise IndexError.
Proof.
  intros H. apply contains_false in H.
  induction s as [|c s IH]; rewrite after_first_eq; cbn [contains] in H;
    apply orb_false_iff in H as [-> H]; [done | by apply IH].
Qed.

(** X14: what [_gen_spec] puts around the paths.  When the document is
    not generated offline, the host is read first: a request base without
    "://" raises [IndexError] before the registry is looked at, and
    otherwise the host is what follows "://".  A document that is returned
    holds the paths of [_gen_paths] and the tags of [_gen_tags]; its base
    path is never empty, and is "/" whenever all endpoints are included,
    whatever base URL the caller gave; offline it names the host
    example.com with the scheme https, and online the scheme http with the
    request base in front of the base path as server. *)
Theorem gen_spec_fields (all_endpoints : bool) (base_url : string)
    (offline : bool) (request_base : string) (list_of_ctrl : list controller)
    (ENDPOINT_MAP : gmap string (list endpoint)) :
  (offline = false → ¬ occurs_in "://" request_base →
   _gen_spec all_endpoints base_url offline request_base list_of_ctrl
     ENDPOINT_MAP = (ENDPOINT_MAP, Raise IndexError)) ∧
  (∀ reg' sp,
     _gen_spec all_endpoints base_url offline request_base list_of_ctrl
       ENDPOINT_MAP = (reg', Ok sp) →
     _gen_paths all_endpoints ENDPOINT_MAP = (reg', Ok (paths sp)) ∧
     tags sp = _gen_tags list_of_ctrl ∧
     basePath sp ≠ "" ∧
     (all_endpoints = true → basePath sp = "/") ∧
     (all_endpoints = false → base_url ≠ "" → basePath sp = base_url) ∧
     (offline = true →
      host sp = "example.com" ∧ schemes sp = ["https"] ∧
      servers sp = [basePath sp]) ∧
     (offline = false →
      (∃ before, request_base = before +:+ "://" +:+ host sp) ∧
      schemes sp = ["http"] ∧
      servers sp = [request_base +:+ basePath sp])).
Proof.
  unfold _gen_spec, m_bind, m_lift, m_ret. split.
  - intros -> H. simpl. by rewrite (after_first_raises _ _ H).
  - intros reg' sp.
    destruct (if negb offline then _ else _) as [h|] eqn:Hh; [|done].
    destruct (_gen_paths all_endpoints ENDPOINT_MAP) as [r [doc|]]; [|done].
    intros [= <- <-]. simpl. split; [done|]. split; [done|].
    split; [|split; [|split; [|split]]].
    + destruct all_endpoints; [done|]. by destruct base_url.
    + by intros ->.
    + intros -> Hb. by destruct base_url.
    + intros ->. simpl in *. by injection Hh as <-.
    + intros ->. simpl in *. split; [|done]. by apply after_first_ok.
Qed.

Lemma gen_spec_fields_witness :
  ∃ sp, (api_json "http://gateway:5000" [] ∅).2 = Ok sp ∧
        basePath sp = "/" ∧ servers sp = ["http://gateway:5000/"] ∧
        ∃ before, "http://gateway:5000" = before +:+ "://" +:+ host sp.
Proof.
  destruct (is_ok_true (api_json "http://gateway:5000" [] ∅).2) as [sp Hsp];
    [vm_compute; reflexivity|].
  exists sp. split; [exact Hsp|].
  destruct (proj2 (gen_spec_fields false "/" false "http://gateway:5000" []
                     ∅) (api_json "http://gateway:5000" [] ∅).1 sp
              (eq_trans (surjective_pairing _) (f_equal (pair _) Hsp)))
    as (_ & _ & _ & _ & Hb & _ & Hon).
  destruct (Hon eq_refl) as (Hh & _ & Hs).
  rewrite Hs, (Hb eq_refl ltac:(discriminate)).
  split; [reflexivity|]. split; [reflexivity | exact Hh].
Defined.

(** ** Properties of the documentation page *)

Lemma not_occurs_cons (sep : ascii) (c : ascii) (s : string) :
  ¬ occurs_in (String sep "") (String c s) →
  c ≠ sep ∧ ¬ occurs_in (String sep "") s.
Proof.
  intros H. split.
  - intros ->. apply H. by exists "", s.
  - intros (before & after & ->). apply H.
    by exists (String c before), after.
Qed.

Lemma split_first_some (sep : ascii) (scheme params : string) :
  ¬ occurs_in (String sep "") scheme →
  split_first sep (scheme +:+ String sep "" +:+ params)
  = Some (scheme, params).
Proof.
  induction scheme as [|c s IH]; intros H.
  - change (split_first sep (String sep params) = Some ("", params)).
    cbn [split_first]. by rewrite Ascii.eqb_refl.
  - apply not_occurs_cons in H as [Hc Hs].
    change (split_first sep (String c (s +:+ String sep "" +:+ params))
            = Some (String c s, params)).
    cbn [split_first]. rewrite (IH Hs).
    by destruct (Ascii.eqb_spec c sep).
Qed.

Lemma split_first_none (sep : ascii) (s : string) :
  ¬ occurs_in (String sep "") s → split_first sep s = None.
Proof.
  induction s as [|c s IH]; intros H; [done|].
  apply not_occurs_cons in H as [Hc Hs]. cbn [split_first].
  rewrite (IH Hs). by destruct (Ascii.eqb_spec c sep).
Qed.

(** X15: the token that the documentation page hands to the explorer.
    The cookie decides when there is one, whatever the authorization
    header holds; without a cookie, a header of the form "scheme params"
    gives its parameters when the scheme is bearer in any letter case and
    the empty token otherwise; no cookie and no header give the empty
    token; and a header without a space makes the page fail with
    [ValueError].  When a token is found the page is returned, and it holds
    the token and the URL of the document between quotes. *)
Theorem swagger_ui_page_token (auth_header auth_cookie : option string) :
  (∀ value, auth_cookie = Some value →
     jwt_token auth_header auth_cookie = Ok value) ∧
  (auth_cookie = None → auth_header = None →
   jwt_token auth_header auth_cookie = Ok "") ∧
  (∀ scheme params,
     auth_cookie = None → auth_header = Some (scheme +:+ " " +:+ params) →
     ¬ occurs_in " " scheme →
     jwt_token auth_header auth_cookie =
       Ok (if String.eqb (lower scheme) "bearer" then params else "")) ∧
  (∀ header all_endpoints base,
     auth_cookie = None → auth_header = Some header →
     ¬ occurs_in " " header →
     _swagger_ui_page all_endpoints base auth_header auth_cookie
     = Raise ValueError) ∧
  (∀ token all_endpoints base,
     jwt_token auth_header auth_cookie = Ok token →
     ∃ page,
       _swagger_ui_page all_endpoints base auth_header auth_cookie
       = Ok page ∧
       occurs_in ("ui.preauthorizeApiKey('jwt', '" +:+ token +:+ "');")
         page ∧
       occurs_in ("url: '" +:+ base +:+
                  (if all_endpoints then "/docs/api-all.json"
                   else "/docs/api.json") +:+ "',") page).
Proof.
  split; [|split; [|split; [|split]]].
  - by intros value ->.
  - by intros -> ->.
  - intros scheme params -> -> H. unfold jwt_token.
    rewrite (split_first_some " "%char scheme params H).
    by destruct (String.eqb (lower scheme) "bearer").
  - intros header all_endpoints base -> -> H.
    unfold _swagger_ui_page, jwt_token.
    by rewrite (split_first_none " "%char header H).
  - intros token all_endpoints base Ht. unfold _swagger_ui_page.
    rewrite Ht. simpl. eexists. split; [reflexivity|].
    assert (Hcb : ∃ c0, callback_before
                        = c0 +:+ "ui.preauthorizeApiKey('jwt', '")
      by (eexists (String.substring 0
                     (String.length callback_before - 30) callback_before);
          vm_compute; reflexivity).
    assert (Hca : ∃ c1, callback_after = "');" +:+ c1)
      by (eexists (String.substring 3
                     (String.length callback_after - 3) callback_after);
          vm_compute; reflexivity).
    assert (Hpu : ∃ p0, page_before_url = p0 +:+ "url: '")
      by (eexists (String.substring 0
                     (String.length page_before_url - 6) page_before_url);
          vm_compute; reflexivity).
    assert (Hpc : ∃ p1, page_before_callback = "'," +:+ p1)
      by (eexists (String.substring 2
                     (String.length page_before_callback - 2)
                     page_before_callback);
          vm_compute; reflexivity).
    destruct Hcb as [c0 ->], Hca as [c1 ->], Hpu as [p0 ->], Hpc as [p1 ->].
    set (spec_url := if all_endpoints then base +:+ "/docs/api-all.json"
                     else base +:+ "/docs/api.json").
    split.
    + exists (p0 +:+ "url: '" +:+ spec_url +:+ "'," +:+ p1 +:+ c0),
        (c1 +:+ page_after_callback).
      by rewrite !append_assoc.
    + exists p0, (p1 +:+ (c0 +:+ "ui.preauthorizeApiKey('jwt', '") +:+
                  token +:+ ("');" +:+ c1) +:+ page_after_callback).
      unfold spec_url. destruct all_endpoints; by rewrite !append_assoc.
Qed.

Lemma swagger_ui_page_token_witness :
  jwt_token (Some "BEARER abc def") None = Ok "abc def" ∧
  jwt_token (Some "Basic dXNlcg==") None = Ok "" ∧
  _swagger_ui_page false "http://gw" (Some "Bearer") None = Raise ValueError.
Proof.
  split; [|split].
  - apply (proj1 (proj2 (proj2 (swagger_ui_page_token
             (Some "BEARER abc def") None))) "BEARER" "abc def");
      [reflexivity | reflexivity | refute_occurrence].
  - apply (proj1 (proj2 (proj2 (swagger_ui_page_token
             (Some "Basic dXNlcg==") None))) "Basic" "dXNlcg==");
      [reflexivity | reflexivity | refute_occurrence].
  - apply (proj1 (proj2 (proj2 (proj2 (swagger_ui_page_token
             (Some "Bearer") None)))) "Bearer" false "http://gw");
      [reflexivity | reflexivity | refute_occurrence].
Defined.

Lemma get_tag_declared_witness :
  let e := mkEndpoint "POST" (mkController "Volume" None)
             (mkHandler (Some "Create a volume.")
                (Some (mkFuncDocInfo "Create" "" []
                         [mkOverride "sise" Tint "Size in bytes" true false
                            None None]))
                false)
             false []
             [mkParam "force" false (Some (VBool false)) None None None]
             [mkParam "size" true None None None None] in
  _get_tag e ∈ map t_name (_gen_tags (selected_ctrls true volumes_registry)).
Proof.
  intros e.
  refine (get_tag_declared true volumes_registry
            (selected_ctrls true volumes_registry) "/volumes" _ e
            (λ c, iff_refl _) (lookup_singleton_eq _ _) _ (or_intror eq_refl)).
  right; left.
Defined.
